(** * pcap_compactor: the compaction pipeline, embedded and verified

  A shallow embedding of the pure and state-passing parts of
  [web/pcap_compactor] (sampling, grouping, features, scan gate and the
  segment validator), with the properties of the specification stated
  over it.

  Conventions of the embedding
  - Python [int] is [Z]; a [float] timestamp is a rational [Q] (every
    finite float is one). The code copies and compares timestamps, which
    is exact, and subtracts them, which is not: a difference is rounded
    to the nearest binary64 number ([Binary64.fsub]).
  - [str] is [string], [bytes] is [list byte].
  - A [set] is a [gset]; a [dict] is a [gmap] (the insertion order that
    Python keeps is not tracked: nothing stated below depends on it).
  - In-place mutation of an object is state passing: a function that
    mutates its argument returns the new value. *)

From Stdlib Require Import ZArith QArith Qminmax List String Lia Lqa.
From stdpp Require Import base decidable option list strings gmap.

Local Open Scope Z_scope.

(** ** dto.py *)

Module Dto.

Inductive Transport := tcp | udp | other.

Record GroupKey := {
  src_ip : string;
  dst_ip : string;
  dst_port : Z;
  transport : Transport;
  service : string
}.

Definition bytes := list Byte.byte.

Record PacketRecord := {
  pkt_ts : Q;
  pkt_src_ip : string;
  pkt_dst_ip : string;
  pkt_src_port : Z;
  pkt_dst_port : Z;
  pkt_transport : Transport;
  pkt_tcp_flags : option Z;
  pkt_length : Z;
  pkt_payload_preview : option bytes
}.

(** The [tcp_flags] dict of an aggregate is built by [_new_aggregate] with
    exactly the keys syn, ack, rst and fin, and no code adds or removes a
    key: it is a record of four counters. *)
Record TcpFlagCounts := {
  syn : Z;
  ack : Z;
  rst : Z;
  fin : Z
}.

(** [_payload_up] and [_payload_dn] are the attributes that features.py
    attaches dynamically; [None] is an attribute that is not set. *)
Record GroupAggregate := {
  key : GroupKey;
  first_ts : Q;
  last_ts : Q;
  pkts_up : Z;
  pkts_dn : Z;
  bytes_up : Z;
  bytes_dn : Z;
  tcp_flags : TcpFlagCounts;
  http_uri_tokens : option (list string);
  ftp_cmd_counts : option (gmap string Z);
  smb_cmd_counts : option (gmap string Z);
  _payload_up : option (list bytes);
  _payload_dn : option (list bytes)
}.

Record ScanSummary := {
  scan_src_ip : string;
  scan_window : Z * Z;
  scan_unique_dsts : nat;
  scan_unique_ports : nat;
  scan_syn_only_ratio : Q;
  scan_sample_targets : list (string * Z)
}.

Record SegmentHandle := {
  id : string;
  sensor : string;
  start_ts : Q;
  end_ts : Q;
  path : string;
  compressor : string
}.

#[export] Instance Transport_eq_dec : EqDecision Transport.
Proof. solve_decision. Defined.

#[export] Instance GroupKey_eq_dec : EqDecision GroupKey.
Proof. solve_decision. Defined.

#[export] Instance byte_eq_dec : EqDecision Byte.byte := Byte.byte_eq_dec.

Definition Transport_code (t : Transport) : nat :=
  match t with tcp => 0 | udp => 1 | other => 2 end.
Definition Transport_of_code (n : nat) : Transport :=
  match n with O => tcp | S O => udp | _ => other end.

#[export] Instance Transport_countable : Countable Transport.
Proof.
  apply (inj_countable' Transport_code Transport_of_code).
  intros []; reflexivity.
Defined.

(** Structural equality and hashing of the frozen dataclass. *)
#[export] Instance GroupKey_countable : Countable GroupKey.
Proof.
  apply (inj_countable'
           (λ k, (src_ip k, dst_ip k, dst_port k, transport k, service k))
           (λ t, let '(s, d, p, tr, sv) := t in
                 {| src_ip := s; dst_ip := d; dst_port := p;
                    transport := tr; service := sv |})).
  intros []; reflexivity.
Defined.

End Dto.

Import Dto.

(** ** pipeline/sampling.py *)

Module Sampling.

(** [agg.http_uri_tokens = toks] *)
Definition set_http_uri_tokens (agg : GroupAggregate) (toks : list string)
  : GroupAggregate :=
  {| key := key agg; first_ts := first_ts agg; last_ts := last_ts agg;
     pkts_up := pkts_up agg; pkts_dn := pkts_dn agg;
     bytes_up := bytes_up agg; bytes_dn := bytes_dn agg;
     tcp_flags := tcp_flags agg;
     http_uri_tokens := Some toks;
     ftp_cmd_counts := ftp_cmd_counts agg;
     smb_cmd_counts := smb_cmd_counts agg;
     _payload_up := _payload_up agg; _payload_dn := _payload_dn agg |}.

(** The loop [for t in other_tokens: if random.random() < p: ...].
    [rnd i] is the value of the [i]-th call of [random.random()]. *)
Fixpoint binomial_draw (rnd : nat → Q) (i : nat) (p : Q)
    (other_tokens : list string) : list string :=
  match other_tokens with
  | [] => []
  | t :: rest =>
      if Qlt_le_dec (rnd i) p
      then t :: binomial_draw rnd (S i) p rest
      else binomial_draw rnd (S i) p rest
  end.

(** [tokens[:budget]] for a positive [budget]. *)
Definition slice_to (budget : Z) (tokens : list string) : list string :=
  take (Z.to_nat budget) tokens.

Definition len (tokens : list string) : Z := Z.of_nat (length tokens).

(** The partition of the tokens, in their order. *)
Definition ak_part (ak_set : gset string) (tokens : list string) :=
  filter (λ t, t ∈ ak_set) tokens.
Definition other_part (ak_set : gset string) (tokens : list string) :=
  filter (λ t, t ∉ ak_set) tokens.

(** [p = min(1.0, remaining_budget / len(other_tokens))
        if remaining_budget > 0 else 0.0]
    The float quotient of two counts is at least 1.0, or at most 0.0,
    exactly when their rational quotient is; between the two the draws are
    compared with the rational, and what is proved holds for every draw. *)
Definition sampling_probability (remaining_budget n_other : Z) : Q :=
  if 0 <? remaining_budget
  then Qmin 1 (inject_Z remaining_budget / inject_Z n_other)
  else 0%Q.

(** The function returns its boolean and the aggregate as it has left it. *)
Definition apply_http_binomial_sampling (rnd : nat → Q)
    (agg : GroupAggregate) (budget : Z) (always_keep : list string)
  : bool * GroupAggregate :=
  match http_uri_tokens agg with
  | None => (false, agg)
  | Some tokens =>
      if bool_decide (tokens = []) || (budget <=? 0) then (false, agg)
      else
        let ak_set : gset string := list_to_set always_keep in
        let ak_tokens := ak_part ak_set tokens in
        let other_tokens := other_part ak_set tokens in
        if len tokens <=? budget then (false, agg)
        else
          let remaining_budget := Z.max 0 (budget - len ak_tokens) in
          if len other_tokens =? 0
          then (true, set_http_uri_tokens agg (slice_to budget ak_tokens))
          else
            let p := sampling_probability remaining_budget (len other_tokens) in
            let sampled :=
              if Qle_bool 1 p then other_tokens
              else if Qle_bool p 0 then []
              else binomial_draw rnd 0 p other_tokens in
            let combined := ak_tokens ++ sampled in
            let combined :=
              if budget <? len combined then slice_to budget combined
              else combined in
            (true, set_http_uri_tokens agg combined)
  end.

(** The tokens of an aggregate, as a list ([None] holds no token). *)
Definition tokens_of (agg : GroupAggregate) : list string :=
  default [] (http_uri_tokens agg).

(** What the sampling promises at one input: the output is within the
    budget and keeps every always-keep token of the input. *)
Definition budget_guarantee (rnd : nat → Q) (agg : GroupAggregate)
    (budget : Z) (always_keep : list string) : Prop :=
  let agg' := (apply_http_binomial_sampling rnd agg budget always_keep).2 in
  len (tokens_of agg') <= budget ∧
  ∀ t, t ∈ always_keep → t ∈ tokens_of agg → t ∈ tokens_of agg'.

(** The number of entries of the list that are always-keep tokens
    ([len(ak_tokens)] in the code). *)
Definition always_keep_count (always_keep tokens : list string) : Z :=
  len (ak_part (list_to_set always_keep) tokens).

End Sampling.

(** ** The subtraction of two floats *)

Module Binary64.

(** [p / q] rounded to the nearest integer, to the even one of the two
    when it lies half way, for [0 <= p] and [0 < q]. *)
Definition nearest_even (p q : Z) : Z :=
  let f := p / q in
  let r := p mod q in
  if 2 * r <? q then f
  else if q <? 2 * r then f + 1
  else if Z.even f then f else f + 1.

(** The integer part of the binary logarithm of [a / d], for positive
    [a] and [d]. *)
Definition floor_log2 (a d : Z) : Z :=
  let e := Z.log2 a - Z.log2 d in
  if a * 2 ^ Z.log2 d <? d * 2 ^ Z.log2 a then e - 1 else e.

(** [s * 2 ^ e] *)
Definition scale (s e : Z) : Q :=
  if 0 <=? e then inject_Z (s * 2 ^ e) else s # Z.to_pos (2 ^ (- e)).

(** The binary64 number nearest to [x], ties to even: a significand of
    53 bits, or fewer below the smallest normal number, where the
    exponent stops at -1074. A result beyond the largest binary64 number
    (the float is then an infinity) is not modelled: the differences of
    timestamps are far from it. *)
Definition round (x : Q) : Q :=
  let n := Qnum x in
  let d := Z.pos (Qden x) in
  if n =? 0 then 0%Q
  else
    let a := Z.abs n in
    let e := Z.max (floor_log2 a d - 52) (- 1074) in
    let m :=
      if 0 <=? e then nearest_even a (d * 2 ^ e)
      else nearest_even (a * 2 ^ (- e)) d in
    scale (Z.sgn n * m) e.

(** [a - b] on floats: the exact difference, rounded. *)
Definition fsub (a b : Q) : Q := round (a - b).

(** [float(n)] for an integer [n]. *)
Definition float_of_int (n : Z) : Q := round (inject_Z n).

(** The binary64 number with significand [m] and exponent [e]. *)
Definition binary64 (m e : Z) : Q := scale m e.

End Binary64.

Import Binary64.

(** ** pipeline/grouping.py *)

Module Grouping.

Definition _PORT_SERVICE_MAP : gmap Z string :=
  list_to_map [(80, "http"%string); (8080, "http"%string);
               (21, "ftp"%string); (445, "smb"%string);
               (22, "ssh"%string); (53, "dns"%string)].

Definition _UNKNOWN : string := "unknown".

Definition infer_service (port : Z) : string :=
  default _UNKNOWN (_PORT_SERVICE_MAP !! port).

Inductive Direction := up | dn.

#[export] Instance Direction_eq_dec : EqDecision Direction.
Proof. solve_decision. Defined.

Definition group_direction (pkt : PacketRecord) (key : GroupKey) : Direction :=
  if bool_decide (pkt_src_ip pkt = src_ip key ∧ pkt_dst_ip pkt = dst_ip key)
  then up
  else if bool_decide (pkt_src_ip pkt = dst_ip key ∧ pkt_dst_ip pkt = src_ip key)
  then dn
  else up.

Record _Entry := { agg : GroupAggregate }.

Record AggregatorShard := {
  _idle : Q;
  _open : gmap GroupKey _Entry;
  _finalized : list GroupAggregate
}.

(** [AggregatorShard(idle_split_seconds=...)] *)
Definition init (idle_split_seconds : Z) : AggregatorShard :=
  {| _idle := float_of_int idle_split_seconds; _open := ∅; _finalized := [] |}.

Definition _new_aggregate (key : GroupKey) (ts : Q) : GroupAggregate :=
  {| key := key;
     first_ts := ts;
     last_ts := ts;
     pkts_up := 0;
     pkts_dn := 0;
     bytes_up := 0;
     bytes_dn := 0;
     tcp_flags := {| syn := 0; ack := 0; rst := 0; fin := 0 |};
     http_uri_tokens := None;
     ftp_cmd_counts := None;
     smb_cmd_counts := None;
     _payload_up := None;
     _payload_dn := None |}.

(** The test [ts - agg.last_ts > self._idle], on floats. *)
Definition idle_exceeded (self : AggregatorShard) (a : GroupAggregate) (ts : Q)
  : bool :=
  if Qlt_le_dec (_idle self) (fsub ts (last_ts a)) then true else false.

(** Returns the aggregate and the shard as the call has left it. The
    aggregate returned is the object held by the entry of [key]. *)
Definition get_or_create (self : AggregatorShard) (key : GroupKey) (ts : Q)
  : GroupAggregate * AggregatorShard :=
  match _open self !! key with
  | None =>
      let a := _new_aggregate key ts in
      (a, {| _idle := _idle self;
             _open := <[key := {| agg := a |}]> (_open self);
             _finalized := _finalized self |})
  | Some entry =>
      let a := agg entry in
      if idle_exceeded self a ts
      then
        let a' := _new_aggregate key ts in
        (a', {| _idle := _idle self;
                _open := <[key := {| agg := a' |}]> (_open self);
                _finalized := _finalized self ++ [a] |})
      else (a, self)
  end.

(** Returns the list it yields and the emptied shard. *)
Definition finalize_all (self : AggregatorShard) (hour_end : Z)
  : list GroupAggregate * AggregatorShard :=
  let finalized := _finalized self ++ (agg <$> (map_to_list (_open self)).*2) in
  (finalized, {| _idle := _idle self; _open := ∅; _finalized := [] |}).

End Grouping.

Import Grouping.

(** ** pipeline/features.py *)

Module Features.

Definition _TCP_FIN : Z := 0x01.
Definition _TCP_SYN : Z := 0x02.
Definition _TCP_RST : Z := 0x04.
Definition _TCP_ACK : Z := 0x10.

Definition _MAX_PREVIEWS_PER_DIR : nat := 12.

(** Truth value of [flags & mask]. *)
Definition has_flag (flags mask : Z) : bool := negb (Z.land flags mask =? 0).

Definition bump (b : bool) (n : Z) : Z := if b then n + 1 else n.

Definition count_flags (c : TcpFlagCounts) (flags : Z) : TcpFlagCounts :=
  {| syn := bump (has_flag flags _TCP_SYN) (syn c);
     ack := bump (has_flag flags _TCP_ACK) (ack c);
     rst := bump (has_flag flags _TCP_RST) (rst c);
     fin := bump (has_flag flags _TCP_FIN) (fin c) |}.

(** [buf = getattr(agg, attr, []); if not buf: setattr(agg, attr, buf);
     if len(buf) < _MAX_PREVIEWS_PER_DIR: buf.append(preview)].
    The list appended to is the one the attribute holds afterwards. *)
Definition stash_preview (attr : option (list bytes)) (preview : bytes)
  : option (list bytes) :=
  let buf := default [] attr in
  Some (if (length buf <? _MAX_PREVIEWS_PER_DIR)%nat
        then buf ++ [preview] else buf).

(** Truth value of [pkt.payload_preview]: set and not empty. *)
Definition truthy_preview (pkt : PacketRecord) : option bytes :=
  match pkt_payload_preview pkt with
  | Some (b :: bs) => Some (b :: bs)
  | _ => None
  end.

Definition update_aggregate (a : GroupAggregate) (pkt : PacketRecord)
    (direction : Direction) : GroupAggregate :=
  {| key := key a;
     first_ts :=
       if Qlt_le_dec (pkt_ts pkt) (first_ts a) then pkt_ts pkt else first_ts a;
     last_ts :=
       if Qlt_le_dec (last_ts a) (pkt_ts pkt) then pkt_ts pkt else last_ts a;
     pkts_up := match direction with up => pkts_up a + 1 | dn => pkts_up a end;
     pkts_dn := match direction with up => pkts_dn a | dn => pkts_dn a + 1 end;
     bytes_up :=
       match direction with
       | up => bytes_up a + pkt_length pkt | dn => bytes_up a end;
     bytes_dn :=
       match direction with
       | up => bytes_dn a | dn => bytes_dn a + pkt_length pkt end;
     tcp_flags :=
       match pkt_tcp_flags pkt with
       | Some flags => count_flags (tcp_flags a) flags
       | None => tcp_flags a
       end;
     http_uri_tokens := http_uri_tokens a;
     ftp_cmd_counts := ftp_cmd_counts a;
     smb_cmd_counts := smb_cmd_counts a;
     _payload_up :=
       match truthy_preview pkt, direction with
       | Some preview, up => stash_preview (_payload_up a) preview
       | _, _ => _payload_up a
       end;
     _payload_dn :=
       match truthy_preview pkt, direction with
       | Some preview, dn => stash_preview (_payload_dn a) preview
       | _, _ => _payload_dn a
       end |}.

(** The previews an enricher reads: [getattr(agg, attr, []) or []]. *)
Definition previews (attr : option (list bytes)) : list bytes :=
  default [] attr.

(** The preview buffer of one direction. *)
Definition buffer (d : Direction) (a : GroupAggregate) : list bytes :=
  previews (match d with up => _payload_up a | dn => _payload_dn a end).

(** The previews a sequence of calls offers to one direction, in order. *)
Definition offered (d : Direction) (calls : list (PacketRecord * Direction))
  : list bytes :=
  omap (λ c, if decide (c.2 = d) then truthy_preview c.1 else None) calls.

Definition update_all (a : GroupAggregate)
    (calls : list (PacketRecord * Direction)) : GroupAggregate :=
  foldl (λ acc c, update_aggregate acc c.1 c.2) a calls.

End Features.

Import Features.

(** ** The per-packet step of the orchestrator *)

Module Runner.

(** Modelled from the spec: orchestration/runner.py is not among the
    sources. Per the specification the run feeds each in-window packet
    to the grouping shard "keyed by a GroupKey": it asks the shard for the
    aggregate of the key at the packet's timestamp and updates that
    aggregate with the packet, in the direction [group_direction] gives.
    The aggregate that [get_or_create] returns is the object held by the
    open entry of the key, so its update is an update of that entry. *)
Definition route_packet (shard : AggregatorShard) (key : GroupKey)
    (pkt : PacketRecord) : AggregatorShard :=
  let '(a, shard') := get_or_create shard key (pkt_ts pkt) in
  let a' := update_aggregate a pkt (group_direction pkt key) in
  {| _idle := _idle shard';
     _open := <[key := {| agg := a' |}]> (_open shard');
     _finalized := _finalized shard' |}.

Definition route_all (shard : AggregatorShard) (key : GroupKey)
    (pkts : list PacketRecord) : AggregatorShard :=
  foldl (λ sh pkt, route_packet sh key pkt) shard pkts.

(** The packets of several keys, in arrival order. *)
Definition route_stream (shard : AggregatorShard)
    (stream : list (GroupKey * PacketRecord)) : AggregatorShard :=
  foldl (λ sh kp, route_packet sh kp.1 kp.2) shard stream.

(** The aggregates a run over one key yields at the end of the hour. *)
Definition run_one_key (idle_split_seconds : Z) (key : GroupKey)
    (pkts : list PacketRecord) (hour_end : Z) : list GroupAggregate :=
  (finalize_all (route_all (init idle_split_seconds) key pkts) hour_end).1.

(** Every aggregate a shard holds, closed or open. *)
Definition aggregates (shard : AggregatorShard) : list GroupAggregate :=
  _finalized shard ++ (agg <$> (map_to_list (_open shard)).*2).

Definition pkts_total (a : GroupAggregate) : Z := pkts_up a + pkts_dn a.

(** The packets counted by a list of aggregates. *)
Definition pkts_sum (l : list GroupAggregate) : Z :=
  foldr (λ a n, pkts_total a + n) 0 l.

(** An aggregate whose span is well formed. *)
Definition ordered (a : GroupAggregate) : Prop :=
  (first_ts a <= last_ts a)%Q.

(** Every aggregate of a shard, closed or open, is ordered. *)
Definition shard_ordered (shard : AggregatorShard) : Prop :=
  (∀ a, a ∈ _finalized shard → ordered a) ∧
  (∀ k e, _open shard !! k = Some e → ordered (agg e)).

(** A shard that holds one open aggregate, of [key]. *)
Definition one_open (idle : Q) (key : GroupKey) (a : GroupAggregate)
    (closed : list GroupAggregate) : AggregatorShard :=
  {| _idle := idle; _open := {[key := {| agg := a |}]}; _finalized := closed |}.

(** Two spans [first_ts, last_ts] without a common instant. *)
Definition disjoint_spans (a1 a2 : GroupAggregate) : Prop :=
  (last_ts a1 < first_ts a2)%Q ∨ (last_ts a2 < first_ts a1)%Q.

(** The number of packets for which the test of the code,
    [ts - last_ts > idle] on floats, holds against the [last_ts] of the
    aggregate open at their arrival: the open aggregate starts at the
    first timestamp, extends to the largest timestamp seen and starts
    again at each such packet. *)
Fixpoint idle_gaps (idle last : Q) (tss : list Q) : nat :=
  match tss with
  | [] => 0
  | t :: rest =>
      if Qlt_le_dec idle (fsub t last) then S (idle_gaps idle t rest)
      else idle_gaps idle (if Qlt_le_dec last t then t else last) rest
  end.

(** Timestamps that never go back, from [prev] on. *)
Fixpoint chronological (prev : Q) (tss : list Q) : Prop :=
  match tss with
  | [] => True
  | t :: rest => (prev <= t)%Q ∧ chronological t rest
  end.

(** The idle-roll property of the specification, at one input: exactly
    two aggregates, that share the packets and do not overlap. *)
Definition two_slices (idle_split_seconds : Z) (key : GroupKey)
    (pkts : list PacketRecord) (hour_end : Z) : Prop :=
  ∃ a1 a2,
    run_one_key idle_split_seconds key pkts hour_end = [a1; a2] ∧
    pkts_total a1 + pkts_total a2 = Z.of_nat (length pkts) ∧
    disjoint_spans a1 a2.

(** What an idle roll promises on timestamps, at one call: the aggregate
    it opens starts no earlier than the one it closes ended. *)
Definition roll_never_goes_back (shard : AggregatorShard) (key : GroupKey)
    (ts : Q) : Prop :=
  ∀ entry,
    _open shard !! key = Some entry →
    idle_exceeded shard (agg entry) ts = true →
    (last_ts (agg entry) <= first_ts (get_or_create shard key ts).1)%Q.

End Runner.

Import Runner.

(** ** pipeline/scan.py *)

Module Scan.

Definition _TCP_SYN : Z := 0x02.
Definition _TCP_ACK : Z := 0x10.

Record _SourceStats := {
  unique_dsts : gset string;
  unique_ports : gset Z;
  syn_only_pkts : Z;
  tcp_pkts : Z;
  sample_targets : list (string * Z)
}.

Record ScanGate := {
  _threshold : Z;
  _cont : Q;
  _n_estimators : Z;
  _random_state : option Z;
  _sample_cap : Z;
  _by_src : gmap string _SourceStats
}.

Definition init (threshold_unique_dsts : Z) (iforest_contamination : Q)
    (iforest_estimators : Z) (iforest_random_state : option Z)
    (sample_targets_cap : Z) : ScanGate :=
  {| _threshold := threshold_unique_dsts;
     _cont := iforest_contamination;
     _n_estimators := iforest_estimators;
     _random_state := iforest_random_state;
     _sample_cap := sample_targets_cap;
     _by_src := ∅ |}.

Definition fresh_stats : _SourceStats :=
  {| unique_dsts := ∅; unique_ports := ∅; syn_only_pkts := 0; tcp_pkts := 0;
     sample_targets := [] |}.

#[export] Instance _SourceStats_inhabited : Inhabited _SourceStats :=
  populate fresh_stats.

(** [(flags & _TCP_SYN) and not (flags & _TCP_ACK)] *)
Definition syn_only (flags : Z) : bool :=
  has_flag flags _TCP_SYN && negb (has_flag flags _TCP_ACK).

(** The statistics of one source after one more packet of [key]. *)
Definition observe_stats (cap : Z) (s : _SourceStats) (pkt : PacketRecord)
    (key : GroupKey) : _SourceStats :=
  {| unique_dsts := {[dst_ip key]} ∪ unique_dsts s;
     unique_ports := {[dst_port key]} ∪ unique_ports s;
     syn_only_pkts :=
       match pkt_tcp_flags pkt with
       | Some flags => bump (syn_only flags) (syn_only_pkts s)
       | None => syn_only_pkts s
       end;
     tcp_pkts :=
       match pkt_tcp_flags pkt with
       | Some _ => tcp_pkts s + 1
       | None => tcp_pkts s
       end;
     sample_targets :=
       if Z.of_nat (length (sample_targets s)) <? cap
       then sample_targets s ++ [(dst_ip key, dst_port key)]
       else sample_targets s |}.

Definition observe_packet (self : ScanGate) (pkt : PacketRecord)
    (key : GroupKey) : ScanGate :=
  let src := src_ip key in
  let s := default fresh_stats (_by_src self !! src) in
  {| _threshold := _threshold self;
     _cont := _cont self;
     _n_estimators := _n_estimators self;
     _random_state := _random_state self;
     _sample_cap := _sample_cap self;
     _by_src := <[src := observe_stats (_sample_cap self) s pkt key]>
                  (_by_src self) |}.

(** [len(s.unique_dsts) > self._threshold] *)
Definition exceeds (threshold : Z) (s : _SourceStats) : Prop :=
  threshold < Z.of_nat (size (unique_dsts s)).

#[export] Instance exceeds_dec threshold s : Decision (exceeds threshold s).
Proof. unfold exceeds. apply _. Defined.

Definition candidates (self : ScanGate) : list string :=
  (filter (λ kv : string * _SourceStats, exceeds (_threshold self) kv.2)
     (map_to_list (_by_src self))).*1.

Record RepetitiveSet := {
  _summaries : list ScanSummary;
  source_ips : gset string
}.

(** [float(s.syn_only_pkts) / float(s.tcp_pkts) if s.tcp_pkts > 0 else 0.0] *)
Definition ratio_of (s : _SourceStats) : Q :=
  if 0 <? tcp_pkts s then (inject_Z (syn_only_pkts s) / inject_Z (tcp_pkts s))%Q
  else 0%Q.

Section Split.

(** [IsolationForest(n_estimators, contamination, random_state)
    .fit_predict(X)] of scikit-learn: the labels of the rows of [X],
    1 for an inlier and -1 for an outlier. *)
Variable fit_predict : Z → Q → option Z → list (list Q) → list Z.

Definition summary_of (self : ScanGate) (src : string) : ScanSummary :=
  let s := _by_src self !!! src in
  {| scan_src_ip := src;
     scan_window := (0, 0);
     scan_unique_dsts := size (unique_dsts s);
     scan_unique_ports := size (unique_ports s);
     scan_syn_only_ratio := ratio_of s;
     scan_sample_targets := sample_targets s |}.

Definition split_repetitive_vs_outliers (self : ScanGate)
  : RepetitiveSet * gset string :=
  let cands := candidates self in
  if bool_decide (cands = [])
  then ({| _summaries := []; source_ips := ∅ |}, ∅)
  else
    let X := (λ src, [ratio_of (_by_src self !!! src)]) <$> cands in
    let sources := cands in
    if (length X <? 3)%nat
    then ({| _summaries := []; source_ips := ∅ |}, list_to_set sources)
    else
      let labels :=
        fit_predict (_n_estimators self) (_cont self) (_random_state self) X in
      let labelled := zip sources labels in
      let inliers := (List.filter (λ sl, sl.2 =? 1) labelled).*1 in
      let rest := (List.filter (λ sl, negb (sl.2 =? 1)) labelled).*1 in
      ({| _summaries := summary_of self <$> inliers;
          source_ips := list_to_set inliers |},
       list_to_set rest).

End Split.

(** The gate after a sequence of observations. *)
Definition observe_all (self : ScanGate)
    (obs : list (PacketRecord * GroupKey)) : ScanGate :=
  foldl (λ g o, observe_packet g o.1 o.2) self obs.

(** The observations made for source [src]. *)
Definition observations_of (src : string) (obs : list (PacketRecord * GroupKey))
  : list (PacketRecord * GroupKey) :=
  filter (λ o, src_ip o.2 = src) obs.

(** The destinations that the observations made for [src] name. *)
Definition contacted (src : string) (obs : list (PacketRecord * GroupKey))
  : gset string :=
  list_to_set ((λ o, dst_ip o.2) <$> observations_of src obs).

(** The statistics the gate holds for [src]; those of a source it has not
    seen are empty. *)
Definition stats_of (self : ScanGate) (src : string) : _SourceStats :=
  default fresh_stats (_by_src self !! src).

(** What observing [pkt] does to the statistics of source [src], when the
    packet is taken to go to destination [dst], port [port]: the gate
    holds statistics for [src] afterwards, whose sets have gained [dst]
    and [port] and whose TCP counters have counted the packet. *)
Definition counted_for (self : ScanGate) (pkt : PacketRecord) (key : GroupKey)
    (src dst : string) (port : Z) : Prop :=
  let before := stats_of self src in
  ∃ after,
    _by_src (observe_packet self pkt key) !! src = Some after ∧
    unique_dsts after = {[dst]} ∪ unique_dsts before ∧
    unique_ports after = {[port]} ∪ unique_ports before ∧
    tcp_pkts after =
      (if pkt_tcp_flags pkt is Some _ then tcp_pkts before + 1
       else tcp_pkts before) ∧
    syn_only_pkts after =
      (if pkt_tcp_flags pkt is Some flags
       then if Z.testbit flags 1 && negb (Z.testbit flags 4)
            then syn_only_pkts before + 1 else syn_only_pkts before
       else syn_only_pkts before).

End Scan.

(** ** intake/validator.py *)

Module Validator.

Import Byte.

Definition MAGIC_PCAP_USEC_BE : bytes := [xa1; xb2; xc3; xd4].
Definition MAGIC_PCAP_USEC_LE : bytes := [xd4; xc3; xb2; xa1].
Definition MAGIC_PCAP_NSEC_BE : bytes := [xa1; xb2; x3c; x4d].
Definition MAGIC_PCAP_NSEC_LE : bytes := [x4d; x3c; xb2; xa1].
Definition MAGIC_PCAPNG : bytes := [x0a; x0d; x0d; x0a].
Definition MAGIC_GZIP : bytes := [x1f; x8b].
Definition MAGIC_ZSTD : bytes := [x28; xb5; x2f; xfd].

(** The exceptions of the calls. The first three are raised by the
    system and are [OSError]s; [ValueError] is raised by the interpreter,
    before any system call, for a path it does not pass on, and is not
    an [OSError]. *)
Inductive Exception :=
| FileNotFoundError
| PermissionError
| IsADirectoryError
| ValueError.

(** [isinstance(e, OSError)] *)
Definition is_OSError (e : Exception) : bool :=
  match e with
  | ValueError => false
  | _ => true
  end.

(** A call returns a value or raises. *)
Inductive outcome (A : Type) :=
| Return (a : A)
| Raise (e : Exception).
Arguments Return {A} a.
Arguments Raise {A} e.

#[export] Instance outcome_ret : MRet outcome := λ A a, Return a.
#[export] Instance outcome_bind : MBind outcome := λ A B f m,
  match m with
  | Return a => f a
  | Raise e => Raise e
  end.

(** What a path names: a regular file with its content, which the process
    may or may not open for reading; a directory; or a name below a
    directory that the process may not search. No node: no such file. *)
Inductive node :=
| Regular (content : bytes) (readable : bool)
| Directory (st_size : Z)
| Unsearchable.

Definition filesystem := string → option node.

(** A path that holds a NUL character: [os.stat] and [open] refuse it
    with [ValueError] ("embedded null byte") without asking the system. *)
Definition has_nul (p : string) : bool :=
  bool_decide (Ascii.zero ∈ list_ascii_of_string p).

(** [os.stat(path).st_size] *)
Definition os_stat_size (fs : filesystem) (p : string) : outcome Z :=
  if has_nul p then Raise ValueError
  else
    match fs p with
    | None => Raise FileNotFoundError
    | Some (Regular content _) => Return (Z.of_nat (length content))
    | Some (Directory st_size) => Return st_size
    | Some Unsearchable => Raise PermissionError
    end.

(** [with open(path, "rb") as f: return f.read(n)] *)
Definition _read_head (fs : filesystem) (p : string) (n : nat) : outcome bytes :=
  if has_nul p then Raise ValueError
  else
    match fs p with
    | None => Raise FileNotFoundError
    | Some (Regular content true) => Return (take n content)
    | Some (Regular content false) => Raise PermissionError
    | Some (Directory _) => Raise IsADirectoryError
    | Some Unsearchable => Raise PermissionError
    end.

Definition _looks_like_uncompressed_pcap (head : bytes) : bool :=
  if (length head <? 4)%nat then false
  else
    let sig4 := take 4 head in
    if bool_decide (sig4 ∈ [MAGIC_PCAP_USEC_BE; MAGIC_PCAP_USEC_LE;
                            MAGIC_PCAP_NSEC_BE; MAGIC_PCAP_NSEC_LE])
    then true
    else if bool_decide (sig4 = MAGIC_PCAPNG) then true
    else false.

Definition _looks_like_gzip (head : bytes) : bool :=
  (2 <=? length head)%nat && bool_decide (take 2 head = MAGIC_GZIP).

Definition _looks_like_zstd (head : bytes) : bool :=
  (4 <=? length head)%nat && bool_decide (take 4 head = MAGIC_ZSTD).

Definition validate_segment (fs : filesystem) (seg : SegmentHandle)
  : outcome bool :=
  match os_stat_size fs (path seg) with
  | Raise e => if is_OSError e then Return false else Raise e
  | Return st_size =>
      if st_size <? 24 then Return false
      else
        head ← _read_head fs (path seg) 16;
        if String.eqb (compressor seg) "none"
        then Return (_looks_like_uncompressed_pcap head)
        else if String.eqb (compressor seg) "gzip"
        then Return (_looks_like_gzip head)
        else if String.eqb (compressor seg) "zstd"
        then Return (_looks_like_zstd head)
        else Return false
  end.

(** The leading bytes of [content] are a magic of the declared
    compressor: one of the PCAP or PCAPNG magics for "none", the gzip
    magic for "gzip", the zstd magic for "zstd". *)
Definition magic_matches (compressor : string) (content : bytes) : Prop :=
  (compressor = "none"%string ∧
     take 4 content ∈ [MAGIC_PCAP_USEC_BE; MAGIC_PCAP_USEC_LE;
                       MAGIC_PCAP_NSEC_BE; MAGIC_PCAP_NSEC_LE; MAGIC_PCAPNG]) ∨
  (compressor = "gzip"%string ∧ take 2 content = MAGIC_GZIP) ∨
  (compressor = "zstd"%string ∧ take 4 content = MAGIC_ZSTD).

End Validator.

(** ** Concrete data for the examples *)

Module Examples.

Definition web_key : GroupKey :=
  {| src_ip := "10.0.0.1"; dst_ip := "10.0.0.2"; dst_port := 80;
     transport := tcp; service := "http" |}.

(** An aggregate of [web_key] that holds the given URI tokens. *)
Definition with_tokens (toks : list string) : GroupAggregate :=
  Sampling.set_http_uri_tokens (_new_aggregate web_key 0) toks.

(** A SYN packet of [web_key] at time [t]. *)
Definition packet_at (t : Q) : PacketRecord :=
  {| pkt_ts := t; pkt_src_ip := "10.0.0.1"; pkt_dst_ip := "10.0.0.2";
     pkt_src_port := 40000; pkt_dst_port := 80; pkt_transport := tcp;
     pkt_tcp_flags := Some 0x02; pkt_length := 60;
     pkt_payload_preview := None |}.

(** A request of [web_key] at time [t], with the preview [G, E, T, n]. *)
Definition request_at (t : Q) (n : Byte.byte) : PacketRecord :=
  {| pkt_ts := t; pkt_src_ip := "10.0.0.1"; pkt_dst_ip := "10.0.0.2";
     pkt_src_port := 40000; pkt_dst_port := 80; pkt_transport := tcp;
     pkt_tcp_flags := Some 0x18; pkt_length := 120;
     pkt_payload_preview := Some [Byte.x47; Byte.x45; Byte.x54; n] |}.

(** Fourteen requests, numbered, with a packet without payload among
    them. *)
Definition fourteen_requests : list (PacketRecord * Direction) :=
  [(request_at 1 Byte.x01, up); (request_at 2 Byte.x02, up);
   (packet_at 2, up);
   (request_at 3 Byte.x03, up); (request_at 4 Byte.x04, up);
   (request_at 5 Byte.x05, up); (request_at 6 Byte.x06, up);
   (request_at 7 Byte.x07, up); (request_at 8 Byte.x08, up);
   (request_at 9 Byte.x09, up); (request_at 10 Byte.x0a, up);
   (request_at 11 Byte.x0b, up); (request_at 12 Byte.x0c, up);
   (request_at 13 Byte.x0d, up); (request_at 14 Byte.x0e, up)].

(** The answer of the server of [web_key], at time [t]. *)
Definition reply_at (t : Q) : PacketRecord :=
  {| pkt_ts := t; pkt_src_ip := "10.0.0.2"; pkt_dst_ip := "10.0.0.1";
     pkt_src_port := 80; pkt_dst_port := 40000; pkt_transport := tcp;
     pkt_tcp_flags := Some 0x12; pkt_length := 60;
     pkt_payload_preview := None |}.

(** A key from [src] to [dst], port 80. *)
Definition key_to (src dst : string) : GroupKey :=
  {| src_ip := src; dst_ip := dst; dst_port := 80;
     transport := tcp; service := "http" |}.

(** A gate with the default knobs but for the threshold. *)
Definition gate (threshold : Z) : Scan.ScanGate :=
  Scan.init threshold (14 # 100) 256 (Some 42) 20.

(** A gate with threshold 1 that has seen two sources contact two
    destinations each. *)
Definition two_scanners : Scan.ScanGate :=
  Scan.observe_all (gate 1)
    [(packet_at 1, key_to "10.0.0.8" "10.1.0.1");
     (packet_at 2, key_to "10.0.0.8" "10.1.0.2");
     (packet_at 3, key_to "10.0.0.9" "10.1.0.1");
     (packet_at 4, key_to "10.0.0.9" "10.1.0.2")].

(** The 24 bytes of a classic PCAP global header: magic a1 b2 c3 d4,
    version 2.4, zone 0, sigfigs 0, snaplen 65535, link type 1. *)
Definition pcap_header : bytes :=
  [Byte.xa1; Byte.xb2; Byte.xc3; Byte.xd4; Byte.x00; Byte.x02;
   Byte.x00; Byte.x04; Byte.x00; Byte.x00; Byte.x00; Byte.x00;
   Byte.x00; Byte.x00; Byte.x00; Byte.x00; Byte.x00; Byte.x00;
   Byte.xff; Byte.xff; Byte.x00; Byte.x00; Byte.x00; Byte.x01].

Definition segment (p compressor : string) : SegmentHandle :=
  {| id := p; sensor := "s1"; start_ts := 0; end_ts := 3600;
     path := p; compressor := compressor |}.

(** A capture directory with an empty file, a file of the first 10 bytes
    of a header, a well-formed file, a well-formed file that the process
    may not read, and a directory. *)
Definition capture_dir : Validator.filesystem := λ p,
  if String.eqb p "empty.pcap" then Some (Validator.Regular [] true)
  else if String.eqb p "short.pcap"
  then Some (Validator.Regular (take 10 pcap_header) true)
  else if String.eqb p "good.pcap"
  then Some (Validator.Regular pcap_header true)
  else if String.eqb p "locked.pcap"
  then Some (Validator.Regular pcap_header false)
  else if String.eqb p "dir.pcap" then Some (Validator.Directory 4096)
  else None.

(** A classifier that calls every row an inlier. *)
Definition all_inliers : Z → Q → option Z → list (list Q) → list Z :=
  λ _ _ _ X, (λ _, 1) <$> X.

(** A source of draws that always returns one half. *)
Definition half : nat → Q := λ _, (1 # 2)%Q.

End Examples.


(** * The rest of the pipeline *)

From stdpp Require Import pretty.

Local Open Scope Z_scope.

(** ** pipeline/windowing.py *)

Module Windowing.

(** [float(window_start) <= ts < float(window_end)]; the bounds are epoch
    seconds, which a float holds exactly. *)
Definition in_window (ts : Q) (window_start window_end : Z) : bool :=
  Qle_bool (inject_Z window_start) ts
  && (if Qlt_le_dec ts (inject_Z window_end) then true else false).

End Windowing.

(** ** pipeline/features.py: finalization *)

Module Finalization.

(** [max(0.0, float(agg.last_ts) - float(agg.first_ts))], the difference
    being the one of floats. *)
Definition duration_of (a : GroupAggregate) : Q :=
  let d := fsub (last_ts a) (first_ts a) in
  if Qlt_le_dec 0 d then d else 0.

Definition finalize_aggregate (a : GroupAggregate)
  : Q * gmap string Z * gmap string Z :=
  let duration_s := duration_of a in
  let counts : gmap string Z :=
    <["pkts_up"%string := pkts_up a]>
      (<["pkts_dn"%string := pkts_dn a]>
         (<["bytes_up"%string := bytes_up a]>
            (<["bytes_dn"%string := bytes_dn a]> ∅))) in
  let flags : gmap string Z :=
    <["syn"%string := syn (tcp_flags a)]>
      (<["ack"%string := ack (tcp_flags a)]>
         (<["rst"%string := rst (tcp_flags a)]>
            (<["fin"%string := fin (tcp_flags a)]> ∅))) in
  (duration_s, counts, flags).

End Finalization.

(** ** pipeline/quantize.py *)

Module Quantize.

(** [max(0, int(x))] *)
Definition _linear_bin (x : Z) : Z := Z.max 0 x.

Section Log.

(** [int(math.floor(math.log(x, base)))] for an integer and for a float
    argument: computations on floats, taken as they are. *)
Variable floor_log : Z → Q → Z.
Variable floor_log_float : Q → Q → Z.

(** [if base <= 1.0: base = 2.0] *)
Definition effective_base (base : Q) : Q :=
  if Qle_bool base 1 then 2%Q else base.

Definition _log_bin (x : Z) (base : Q) : Z :=
  if x <=? 0 then 0 else floor_log x (effective_base base).

Definition _log_bin_float (x : Q) (base : Q) : Z :=
  if Qle_bool x 0 then 0 else floor_log_float x (effective_base base).

(** [int(d.get(k, 0))] *)
Definition get0 (d : gmap string Z) (k : string) : Z := default 0 (d !! k).

(** [max(0.0, float(duration_s))] *)
Definition clamp_duration (duration_s : Q) : Q :=
  if Qlt_le_dec 0 duration_s then duration_s else 0%Q.

Definition quantize_tokens (counts : gmap string Z) (duration_s : Q)
    (flags : gmap string Z) (count_log_base duration_log_base : Q)
  : gmap string Z :=
  let pkts_up := get0 counts "pkts_up" in
  let pkts_dn := get0 counts "pkts_dn" in
  let bytes_up := get0 counts "bytes_up" in
  let bytes_dn := get0 counts "bytes_dn" in
  let syn := get0 flags "syn" in
  let ack := get0 flags "ack" in
  let rst := get0 flags "rst" in
  let fin := get0 flags "fin" in
  list_to_map
    [("pkts_up_bin"%string, _log_bin pkts_up count_log_base);
     ("pkts_dn_bin"%string, _log_bin pkts_dn count_log_base);
     ("bytes_up_bin"%string, _log_bin bytes_up count_log_base);
     ("bytes_dn_bin"%string, _log_bin bytes_dn count_log_base);
     ("dur_bin"%string,
        _log_bin_float (clamp_duration duration_s) duration_log_base);
     ("syn_bin"%string, _linear_bin syn);
     ("ack_bin"%string, _linear_bin ack);
     ("rst_bin"%string, _linear_bin rst);
     ("fin_bin"%string, _linear_bin fin)].

(** The nine tokens of one aggregate: finalization, then quantization. *)
Definition tokens_of_aggregate (a : GroupAggregate)
    (count_log_base duration_log_base : Q) : gmap string Z :=
  let '(duration_s, counts, flags) := Finalization.finalize_aggregate a in
  quantize_tokens counts duration_s flags count_log_base duration_log_base.

End Log.

(** The names of the tokens. *)
Definition token_names : gset string :=
  {[ "pkts_up_bin"; "pkts_dn_bin"; "bytes_up_bin"; "bytes_dn_bin"; "dur_bin";
     "syn_bin"; "ack_bin"; "rst_bin"; "fin_bin" ]}%string.

End Quantize.

(** ** intake/packet_reader.py: the records made of a parsed packet *)

Module PacketReader.

Definition _PREVIEW_LEN : nat := 256.

(** The fields read from a parsed TCP segment. *)
Record TcpSegment := {
  sport : Z;
  dport : Z;
  flags : Z;
  data : bytes
}.

(** The fields read from a parsed UDP datagram. *)
Record UdpDatagram := {
  udp_sport : Z;
  udp_dport : Z
}.

(** [payload[:_PREVIEW_LEN] if payload else None] *)
Definition preview_of (payload : bytes) : option bytes :=
  match payload with
  | [] => None
  | _ => Some (take _PREVIEW_LEN payload)
  end.

Definition _from_tcp (ts : Q) (src dst : string) (seg : TcpSegment)
    (frame_len : Z) : PacketRecord :=
  {| pkt_ts := ts; pkt_src_ip := src; pkt_dst_ip := dst;
     pkt_src_port := sport seg; pkt_dst_port := dport seg;
     pkt_transport := tcp; pkt_tcp_flags := Some (flags seg);
     pkt_length := frame_len;
     pkt_payload_preview := preview_of (data seg) |}.

Definition _from_udp (ts : Q) (src dst : string) (dgram : UdpDatagram)
    (frame_len : Z) : PacketRecord :=
  {| pkt_ts := ts; pkt_src_ip := src; pkt_dst_ip := dst;
     pkt_src_port := udp_sport dgram; pkt_dst_port := udp_dport dgram;
     pkt_transport := udp; pkt_tcp_flags := None;
     pkt_length := frame_len;
     pkt_payload_preview := None |}.

Definition _other_transport (ts : Q) (src dst : string) (frame_len : Z)
  : PacketRecord :=
  {| pkt_ts := ts; pkt_src_ip := src; pkt_dst_ip := dst;
     pkt_src_port := 0; pkt_dst_port := 0;
     pkt_transport := other; pkt_tcp_flags := None;
     pkt_length := frame_len;
     pkt_payload_preview := None |}.

(** What the IP layer hands over: the transport found in the packet. *)
Inductive Payload :=
| TcpPayload (seg : TcpSegment)
| UdpPayload (dgram : UdpDatagram)
| OtherPayload.

(** The dispatch of [_parse_ipv4] and [_parse_ipv6] on the protocol. *)
Definition record_of (ts : Q) (src dst : string) (p : Payload) (frame_len : Z)
  : PacketRecord :=
  match p with
  | TcpPayload seg => _from_tcp ts src dst seg frame_len
  | UdpPayload dgram => _from_udp ts src dst dgram frame_len
  | OtherPayload => _other_transport ts src dst frame_len
  end.

(** A preview as the reader makes them: absent, or between 1 and 256
    bytes. *)
Definition reader_preview (pkt : PacketRecord) : Prop :=
  match pkt_payload_preview pkt with
  | None => True
  | Some p => (0 < length p ≤ _PREVIEW_LEN)%nat
  end.

End PacketReader.

(** ** pipeline/enrichers.py *)

Module Enrichers.

(** A bytes literal. *)
Definition b (s : string) : bytes := list_byte_of_string s.

(** [line.startswith(pre)] *)
Definition startswith (line pre : bytes) : bool :=
  bool_decide (pre `prefix_of` line).

(** [l.find(sub, start)], with [None] for -1: the index of the first
    occurrence of [sub] that starts at [start] or later. *)
Fixpoint find_at (sub l : bytes) (i : nat) : option nat :=
  match l with
  | [] => if bool_decide (sub = []) then Some i else None
  | _ :: rest =>
      if bool_decide (sub `prefix_of` l) then Some i else find_at sub rest (S i)
  end.

Definition find (l sub : bytes) (start : nat) : option nat :=
  if (start <=? length l)%nat then find_at sub (drop start l) start else None.

(** [blob.split(b"\r\n")]: the pieces between the occurrences of CR LF,
    found from the left. *)
Fixpoint split_crlf (l : bytes) : list bytes :=
  match l with
  | [] => [[]]
  | x :: rest =>
      let cont :=
        match split_crlf rest with
        | piece :: pieces => (x :: piece) :: pieces
        | [] => [[x]]
        end in
      match rest with
      | y :: rest' =>
          if bool_decide (x = Byte.x0d ∧ y = Byte.x0a)
          then [] :: split_crlf rest'
          else cont
      | [] => cont
      end
  end.

(** [blob.split(b"\r\n", 1)[0]] *)
Definition first_line (blob : bytes) : bytes :=
  default [] (head (split_crlf blob)).

(** [bytes.upper()]: the ASCII letters a to z, and only they, are mapped. *)
Definition upper_byte (c : Byte.byte) : Byte.byte :=
  let n := Byte.to_N c in
  if ((97 <=? n) && (n <=? 122))%N then default c (Byte.of_N (n - 32)) else c.

Definition upper (l : bytes) : bytes := upper_byte <$> l.

(** [counts[key] = counts.get(key, 0) + 1] *)
Definition incr (key : string) (counts : gmap string Z) : gmap string Z :=
  <[key := default 0 (counts !! key) + 1]> counts.

(** *** HTTP *)

Definition methods : list bytes :=
  b <$> ["GET "; "POST "; "HEAD "; "PUT "; "DELETE "; "OPTIONS "; "PATCH "]%string.

(** The request target of a preview, when its first line starts with a
    method: what lies between the first space and [" HTTP/"], or the end of
    the line. *)
Definition request_target (blob : bytes) : option bytes :=
  if bool_decide (blob = []) then None
  else
    let line := first_line blob in
    if negb (existsb (startswith line) methods) then None
    else
      match find line (b " ") 0 with
      | None => None
      | Some O => None
      | Some space1 =>
          Some
            match find line (b " HTTP/") (space1 + 1) with
            | None => drop (space1 + 1) line
            | Some space2 => take (space2 - (space1 + 1)) (drop (space1 + 1) line)
            end
      end.

(** [tokens[:n]], for any integer [n]. *)
Definition slice_upto (n : Z) (tokens : list string) : list string :=
  if 0 <=? n then take (Z.to_nat n) tokens
  else take (length tokens - Z.to_nat (- n)) tokens.

Section Http.

(** [_split_http_target_to_tokens]: UTF-8 decoding, the translation of the
    separators, Unicode lower-casing and splitting on white space are not
    modelled; what follows holds for every tokenizer. *)
Variable _split_http_target_to_tokens : bytes → list string.

(** The loop over the previews, from the tokens gathered so far. *)
Fixpoint extract_loop (max_tokens : Z) (previews : list bytes)
    (tokens : list string) : list string :=
  match previews with
  | [] => tokens
  | blob :: rest =>
      match request_target blob with
      | None => extract_loop max_tokens rest tokens
      | Some target =>
          let tokens := tokens ++ _split_http_target_to_tokens target in
          if max_tokens <=? Z.of_nat (length tokens) then tokens
          else extract_loop max_tokens rest tokens
      end
  end.

Definition _http_extract_uri_tokens (previews : list bytes) (max_tokens : Z)
  : list string :=
  slice_upto max_tokens (extract_loop max_tokens previews []).

(** The tokens of every request target, in order. *)
Definition all_target_tokens (previews : list bytes) : list string :=
  mjoin (_split_http_target_to_tokens <$> omap request_target previews).

End Http.

(** *** FTP *)

Definition verbs : list string := ["USER"; "PASS"; "STOR"; "RETR"]%string.

(** [U.startswith(v + b" ")] for [U = line.upper()] *)
Definition has_verb (line : bytes) (v : string) : bool :=
  startswith (upper line) (b v ++ b " ").

Definition ftp_count_line (counts : gmap string Z) (line : bytes)
  : gmap string Z :=
  foldl (λ counts v, if has_verb line v then incr v counts else counts)
    counts verbs.

Definition ftp_count_blob (counts : gmap string Z) (blob : bytes)
  : gmap string Z :=
  if bool_decide (blob = []) then counts
  else foldl ftp_count_line counts (split_crlf blob).

Definition _ftp_command_counts (previews : list bytes) : gmap string Z :=
  foldl ftp_count_blob ∅ previews.

(** The lines of the previews. *)
Definition ftp_lines (previews : list bytes) : list bytes :=
  mjoin ((λ blob, if bool_decide (blob = []) then [] else split_crlf blob)
           <$> previews).

(** *** SMB *)

Definition SMB2_MAGIC : bytes := [Byte.xfe; Byte.x53; Byte.x4d; Byte.x42].
Definition SMB1_MAGIC : bytes := [Byte.xff; Byte.x53; Byte.x4d; Byte.x42].

(** [f"SMB2_{cmd}"] and [f"SMB1_{cmd}"] *)
Definition smb2_key (cmd : Byte.byte) : string :=
  "SMB2_" +:+ pretty (Byte.to_N cmd).
Definition smb1_key (cmd : Byte.byte) : string :=
  "SMB1_" +:+ pretty (Byte.to_N cmd).

(** The key a preview is counted under, if any. The guards on the length
    make [blob[12]] and [blob[4]] exist. *)
Definition smb_key (blob : bytes) : option string :=
  if bool_decide (blob = []) || (length blob <? 8)%nat then None
  else if bool_decide (take 4 blob = SMB2_MAGIC) && (16 <=? length blob)%nat
  then smb2_key <$> blob !! 12%nat
  else if bool_decide (take 4 blob = SMB1_MAGIC) && (8 <=? length blob)%nat
  then smb1_key <$> blob !! 4%nat
  else None.

Definition smb_count_blob (counts : gmap string Z) (blob : bytes)
  : gmap string Z :=
  match smb_key blob with
  | Some key => incr key counts
  | None => counts
  end.

Definition _smb_command_counts (previews : list bytes) : gmap string Z :=
  foldl smb_count_blob ∅ previews.

(** *** The dispatch on the service *)

Definition set_ftp_cmd_counts (a : GroupAggregate) (counts : gmap string Z)
  : GroupAggregate :=
  {| key := key a; first_ts := first_ts a; last_ts := last_ts a;
     pkts_up := pkts_up a; pkts_dn := pkts_dn a;
     bytes_up := bytes_up a; bytes_dn := bytes_dn a;
     tcp_flags := tcp_flags a;
     http_uri_tokens := http_uri_tokens a;
     ftp_cmd_counts := Some counts;
     smb_cmd_counts := smb_cmd_counts a;
     _payload_up := _payload_up a; _payload_dn := _payload_dn a |}.

Definition set_smb_cmd_counts (a : GroupAggregate) (counts : gmap string Z)
  : GroupAggregate :=
  {| key := key a; first_ts := first_ts a; last_ts := last_ts a;
     pkts_up := pkts_up a; pkts_dn := pkts_dn a;
     bytes_up := bytes_up a; bytes_dn := bytes_dn a;
     tcp_flags := tcp_flags a;
     http_uri_tokens := http_uri_tokens a;
     ftp_cmd_counts := ftp_cmd_counts a;
     smb_cmd_counts := Some counts;
     _payload_up := _payload_up a; _payload_dn := _payload_dn a |}.

(** [{"http": False, "ftp": False, "smb": False}] *)
Definition nothing_updated : gmap string bool :=
  <["http"%string := false]>
    (<["ftp"%string := false]> (<["smb"%string := false]> ∅)).

Section Dispatch.

Variable _split_http_target_to_tokens : bytes → list string.

(** [str.lower()], whose Unicode case mapping is not modelled. *)
Variable str_lower : string → string.

(** The previews scanned: those sent up, then those sent down. *)
Definition scanned (a : GroupAggregate) : list bytes :=
  previews (_payload_up a) ++ previews (_payload_dn a).

(** Returns the flags and the aggregate as the call has left it. *)
Definition enrich_group (a : GroupAggregate) : gmap string bool * GroupAggregate :=
  let updated := nothing_updated in
  let previews := scanned a in
  if bool_decide (previews = []) then (updated, a)
  else
    let svc := str_lower (service (key a)) in
    if String.eqb svc "http" then
      let toks := _http_extract_uri_tokens _split_http_target_to_tokens previews 256 in
      if bool_decide (toks = []) then (updated, a)
      else (<["http"%string := true]> updated, Sampling.set_http_uri_tokens a toks)
    else if String.eqb svc "ftp" then
      let counts := _ftp_command_counts previews in
      if bool_decide (counts = ∅) then (updated, a)
      else (<["ftp"%string := true]> updated, set_ftp_cmd_counts a counts)
    else if String.eqb svc "smb" then
      let counts := _smb_command_counts previews in
      if bool_decide (counts = ∅) then (updated, a)
      else (<["smb"%string := true]> updated, set_smb_cmd_counts a counts)
    else (updated, a).

End Dispatch.

(** The aggregate with its three enrichment fields taken from [b']. *)
Definition with_enrichments_of (a b' : GroupAggregate) : GroupAggregate :=
  {| key := key a; first_ts := first_ts a; last_ts := last_ts a;
     pkts_up := pkts_up a; pkts_dn := pkts_dn a;
     bytes_up := bytes_up a; bytes_dn := bytes_dn a;
     tcp_flags := tcp_flags a;
     http_uri_tokens := http_uri_tokens b';
     ftp_cmd_counts := ftp_cmd_counts b';
     smb_cmd_counts := smb_cmd_counts b';
     _payload_up := _payload_up a; _payload_dn := _payload_dn a |}.

End Enrichers.

(** ** intake/segment_source_fs.py: the compressor of a file name *)

Module SegmentSource.

Definition COMP_SUFFIXES : list (string * string) :=
  [(".pcap.zst", "zstd"); (".pcapng.zst", "zstd"); (".zst", "zstd");
   (".pcap.gz", "gzip"); (".pcapng.gz", "gzip"); (".gz", "gzip")]%string.

(** [s.endswith(suffix)] *)
Definition endswith (s suffix : string) : bool :=
  bool_decide (list_ascii_of_string suffix `suffix_of` list_ascii_of_string s).

Section Names.

(** [str.lower()], whose Unicode case mapping is not modelled. *)
Variable str_lower : string → string.

Definition _infer_compressor (name : string) : string :=
  let lower := str_lower name in
  match List.find (λ sc : string * string, endswith lower sc.1) COMP_SUFFIXES with
  | Some (_, comp) => comp
  | None => "none"
  end.

End Names.

End SegmentSource.

(** ** Measures over the aggregates of a shard *)

Module Measures.

(** The sum of a counter over a list of aggregates. *)
Definition agg_sum (f : GroupAggregate → Z) (l : list GroupAggregate) : Z :=
  foldr (λ a n, f a + n) 0 l.

(** The open aggregates of a shard. *)
Definition open_aggregates (shard : AggregatorShard) : list GroupAggregate :=
  agg <$> (map_to_list (_open shard)).*2.

(** What one packet adds to the packet and byte counters. *)
Definition bytes_total (a : GroupAggregate) : Z := bytes_up a + bytes_dn a.

(** Every open aggregate is stored under its own key. *)
Definition keyed (shard : AggregatorShard) : Prop :=
  ∀ k e, _open shard !! k = Some e → key (agg e) = k.

(** Every aggregate of the shard carries a key of [ks], and every open one
    is stored under the key it carries. *)
Definition keys_within (shard : AggregatorShard) (ks : gset GroupKey) : Prop :=
  keyed shard ∧
  (∀ a, a ∈ _finalized shard → key a ∈ ks) ∧
  (∀ k e, _open shard !! k = Some e → k ∈ ks).

(** The number of calls of a sequence that satisfy a test. *)
Definition count_calls (test : PacketRecord → Direction → bool)
    (calls : list (PacketRecord * Direction)) : Z :=
  Z.of_nat (length (List.filter (λ c, test c.1 c.2) calls)).

(** The bytes of the calls of a sequence that go in direction [d]. *)
Definition bytes_of_calls (d : Direction)
    (calls : list (PacketRecord * Direction)) : Z :=
  foldr (λ c n, (if decide (c.2 = d) then pkt_length c.1 else 0) + n) 0 calls.

(** The bytes of the packets of a stream. *)
Definition stream_bytes (stream : list (GroupKey * PacketRecord)) : Z :=
  foldr (λ kp n, pkt_length kp.2 + n) 0 stream.

(** The packets of a stream that go in direction [d] for their key. *)
Definition stream_count (d : Direction) (stream : list (GroupKey * PacketRecord))
  : Z :=
  foldr (λ kp n, (if decide (group_direction kp.2 kp.1 = d) then 1 else 0) + n)
    0 stream.

(** A TCP packet with bit [n] of its flags set. *)
Definition tcp_bit (n : Z) (pkt : PacketRecord) : bool :=
  match pkt_tcp_flags pkt with
  | Some flags => Z.testbit flags n
  | None => false
  end.

End Measures.

(** ** What the scan gate has seen of one source *)

Module ScanMeasures.

Import Scan.

(** The targets of the observations made for [src], in order. *)
Definition targets_of (src : string) (obs : list (PacketRecord * GroupKey))
  : list (string * Z) :=
  (λ o, (dst_ip o.2, dst_port o.2)) <$> observations_of src obs.

(** The number of observations made for [src] whose packet passes [test]. *)
Definition count_obs (test : PacketRecord → bool) (src : string)
    (obs : list (PacketRecord * GroupKey)) : Z :=
  Z.of_nat (length (List.filter (λ o, test o.1) (observations_of src obs))).

Definition is_tcp (pkt : PacketRecord) : bool :=
  if pkt_tcp_flags pkt is Some _ then true else false.

(** SYN set and ACK not set. *)
Definition is_syn_only (pkt : PacketRecord) : bool :=
  match pkt_tcp_flags pkt with
  | Some flags => Z.testbit flags 1 && negb (Z.testbit flags 4)
  | None => false
  end.

(** A classifier that answers with one label for each row. *)
Definition one_label_per_row
    (fit_predict : Z → Q → option Z → list (list Q) → list Z) : Prop :=
  ∀ n c rs X, length (fit_predict n c rs X) = length X.

End ScanMeasures.

(** ** What the enrichers count *)

Module EnricherMeasures.

Import Enrichers.

(** The entry of a dict of counters for a key counted [n] times: absent
    when the key was never counted. *)
Definition positive (n : Z) : option Z := if n =? 0 then None else Some n.

(** The entry [o] of a dict of counters after [n] more increments. *)
Definition add_count (o : option Z) (n : Z) : option Z :=
  if n =? 0 then o else Some (default 0 o + n).

(** The number of previews counted under the key [k]. *)
Definition smb_count (k : string) (previews : list bytes) : Z :=
  Z.of_nat
    (length (List.filter (λ blob, bool_decide (smb_key blob = Some k)) previews)).

(** The number of lines of the previews that start with the verb [v] and a
    space, in any case. *)
Definition ftp_count (v : string) (previews : list bytes) : Z :=
  Z.of_nat (length (List.filter (λ line, has_verb line v) (ftp_lines previews))).

(** The sum of a measure over a list. *)
Definition total {A} (n : A → Z) (l : list A) : Z := foldr (λ x s, n x + s) 0 l.

(** The bytes held by a list of previews. *)
Definition held_bytes (buf : list bytes) : nat := length (mjoin buf).

End EnricherMeasures.

(** ** Further data for the examples *)

Module MoreExamples.

Import Examples.

(** A gate with threshold 0 that has seen three sources, the second one
    with a SYN and the answer to it counted on its side. *)
Definition three_scanners : Scan.ScanGate :=
  Scan.observe_all (gate 0)
    [(packet_at 1, key_to "10.0.0.7" "10.1.0.1");
     (packet_at 2, key_to "10.0.0.8" "10.1.0.1");
     (reply_at 3, key_to "10.0.0.8" "10.1.0.1");
     (packet_at 4, key_to "10.0.0.9" "10.1.0.2")].

(** A classifier that calls the first row an outlier and the others
    inliers. *)
Definition first_is_outlier : Z → Q → option Z → list (list Q) → list Z :=
  λ _ _ _ X,
    match X with
    | [] => []
    | _ :: rest => (-1) :: ((λ _, 1) <$> rest)
    end.

End MoreExamples.
(** * Properties *)

(** ** The subtraction of floats *)

Module Binary64Facts.

Lemma nearest_even_nonneg p q : 0 <= p → 0 < q → 0 <= nearest_even p q.
Proof.
  intros Hp Hq. unfold nearest_even.
  pose proof (Z.div_pos p q Hp Hq).
  repeat destruct (_ <? _); try destruct (Z.even _); lia.
Qed.

(** [nearest_even p q] is an integer nearest to [p / q], and the even
    one when [p / q] lies half way between two. *)
Lemma nearest_even_spec p q :
  0 <= p → 0 < q →
  Z.abs (2 * p - 2 * q * nearest_even p q) <= q ∧
  (Z.abs (2 * p - 2 * q * nearest_even p q) = q →
   Z.even (nearest_even p q) = true).
Proof.
  intros Hp Hq. unfold nearest_even.
  pose proof (Z.div_mod p q ltac:(lia)) as Hdiv.
  pose proof (Z.mod_pos_bound p q Hq) as Hmod.
  set (f := p / q) in *. set (r := p mod q) in *.
  destruct (Z.ltb_spec (2 * r) q); [split; nia|].
  destruct (Z.ltb_spec q (2 * r)); [split; nia|].
  destruct (Z.even f) eqn:Hf; [split; [nia | done]|].
  split; [nia|]. intros _.
  rewrite Z.even_add, Hf. reflexivity.
Qed.

Lemma scale_nonneg s e : 0 <= s → (0 <= scale s e)%Q.
Proof.
  intros Hs. unfold scale. pose proof (Z.pow_nonneg 2 e).
  destruct (0 <=? e); unfold Qle; simpl; nia.
Qed.

Lemma scale_nonpos s e : s <= 0 → (scale s e <= 0)%Q.
Proof.
  intros Hs. unfold scale. pose proof (Z.pow_nonneg 2 e).
  destruct (0 <=? e); unfold Qle; simpl; nia.
Qed.

(** The significand is never negative. *)
Lemma significand_nonneg a d e :
  0 <= a → 0 < d →
  0 <= (if 0 <=? e then nearest_even a (d * 2 ^ e)
        else nearest_even (a * 2 ^ (- e)) d).
Proof.
  intros Ha Hd. destruct (Z.leb_spec 0 e).
  - apply nearest_even_nonneg; [done|].
    pose proof (Z.pow_pos_nonneg 2 e). nia.
  - apply nearest_even_nonneg; [|done].
    pose proof (Z.pow_nonneg 2 (- e)). nia.
Qed.

(** Rounding keeps the sign, and keeps 0. *)
Lemma round_nonneg x : (0 <= x)%Q → (0 <= round x)%Q.
Proof.
  intros Hx. assert (0 <= Qnum x) by (unfold Qle in Hx; simpl in Hx; lia).
  unfold round. destruct (Z.eqb_spec (Qnum x) 0); [done|].
  apply scale_nonneg.
  pose proof (significand_nonneg (Z.abs (Qnum x)) (Z.pos (Qden x))
                (Z.max (floor_log2 (Z.abs (Qnum x)) (Z.pos (Qden x)) - 52)
                   (- 1074))).
  nia.
Qed.

Lemma round_nonpos x : (x <= 0)%Q → (round x <= 0)%Q.
Proof.
  intros Hx. assert (Qnum x <= 0) by (unfold Qle in Hx; simpl in Hx; lia).
  unfold round. destruct (Z.eqb_spec (Qnum x) 0); [done|].
  apply scale_nonpos.
  pose proof (significand_nonneg (Z.abs (Qnum x)) (Z.pos (Qden x))
                (Z.max (floor_log2 (Z.abs (Qnum x)) (Z.pos (Qden x)) - 52)
                   (- 1074))).
  nia.
Qed.

Lemma round_0 x : (x == 0)%Q → round x = 0%Q.
Proof.
  intros Hx. assert (Qnum x = 0) by (unfold Qeq in Hx; simpl in Hx; lia).
  unfold round. by destruct (Z.eqb_spec (Qnum x) 0).
Qed.

(** A float minus itself is 0. *)
Lemma fsub_diag a : fsub a a = 0%Q.
Proof. apply round_0. ring. Qed.

(** A difference of floats never has the sign opposite to the exact one. *)
Lemma fsub_nonneg a b : (b <= a)%Q → (0 <= fsub a b)%Q.
Proof. intros H. apply round_nonneg. lra. Qed.

Lemma fsub_nonpos a b : (a <= b)%Q → (fsub a b <= 0)%Q.
Proof. intros H. apply round_nonpos. lra. Qed.

Lemma fsub_pos a b : (0 < fsub a b)%Q → (b < a)%Q.
Proof.
  intros H. destruct (Qlt_le_dec b a) as [|Hle]; [done|].
  apply fsub_nonpos in Hle. lra.
Qed.

(** Rounding at work: the double nearest to one tenth; a tie above 2^53
    goes to the even neighbour; below the smallest subnormal number, half
    of it goes to 0 and three halves of it to twice it. *)
Example round_examples :
  (round (1 # 10) == binary64 3602879701896397 (- 55))%Q ∧
  (round (inject_Z (2 ^ 53 + 1)) == inject_Z (2 ^ 53))%Q ∧
  (round (inject_Z (2 ^ 53 + 3)) == inject_Z (2 ^ 53 + 4))%Q ∧
  (round (binary64 1 (- 1075)) == 0)%Q ∧
  (round (binary64 3 (- 1075)) == binary64 1 (- 1073))%Q ∧
  (round (- (1 # 3)) == - binary64 6004799503160661 (- 54))%Q.
Proof. repeat split; vm_compute; reflexivity. Qed.

(** The doubles nearest to 0.7 and to 120.7: their exact difference is
    above 120, the difference the code computes is 120. *)
Example round_off_at_120 :
  let t0 := binary64 6305039478318694 (- 53) in
  let t1 := binary64 8493507422244045 (- 46) in
  round t0 = t0 ∧ round t1 = t1 ∧
  (120 < t1 - t0)%Q ∧ (fsub t1 t0 == 120)%Q.
Proof. repeat split; vm_compute; reflexivity. Qed.

End Binary64Facts.

(** ** Sampling *)

Module SamplingFacts.

Import Sampling Examples.

Lemma elem_of_ak_part (ak_set : gset string) (tokens : list string) t :
  t ∈ ak_part ak_set tokens ↔ t ∈ ak_set ∧ t ∈ tokens.
Proof. unfold ak_part. rewrite list_elem_of_filter. done. Qed.

Lemma len_nonneg (l : list string) : 0 <= len l.
Proof. unfold len. lia. Qed.

Lemma len_app (l1 l2 : list string) : len (l1 ++ l2) = len l1 + len l2.
Proof. unfold len. rewrite length_app. lia. Qed.

Lemma len_slice_to budget (l : list string) :
  0 <= budget → len (slice_to budget l) <= budget.
Proof. unfold len, slice_to. rewrite length_take. lia. Qed.

(** A slice no shorter than a prefix keeps the prefix. *)
Lemma slice_to_keeps_prefix budget (l1 l2 : list string) t :
  len l1 <= budget → t ∈ l1 → t ∈ slice_to budget (l1 ++ l2).
Proof.
  unfold len, slice_to. intros Hlen Hin.
  rewrite take_app_ge by lia.
  apply elem_of_app. by left.
Qed.

Lemma tokens_of_set agg toks : tokens_of (set_http_uri_tokens agg toks) = toks.
Proof. reflexivity. Qed.

(** C1, as amended. For every aggregate, every outcome [rnd] of the random
    draws and every budget that is at least the number of entries of the
    token list that are always-keep tokens, the token list after
    [apply_http_binomial_sampling] holds every always-keep token that the
    input list held, and, when the budget is at least 1, it has at most
    [budget] entries. *)
Theorem sampling_within_budget rnd agg budget always_keep :
  always_keep_count always_keep (tokens_of agg) <= budget →
  let agg' := (apply_http_binomial_sampling rnd agg budget always_keep).2 in
  (1 <= budget → len (tokens_of agg') <= budget) ∧
  (∀ t, t ∈ always_keep → t ∈ tokens_of agg → t ∈ tokens_of agg').
Proof.
  intros Hak. unfold apply_http_binomial_sampling.
  unfold always_keep_count, tokens_of in *.
  destruct (http_uri_tokens agg) as [tokens|] eqn:Htok; simpl in *.
  2:{ rewrite Htok. simpl. split; [unfold len; simpl; lia | done]. }
  destruct (bool_decide (tokens = []) || (budget <=? 0)) eqn:Hguard; simpl.
  { rewrite Htok; simpl. split; [|done]. intros Hpos.
    apply orb_true_iff in Hguard as [Hnil | Hle].
    - apply bool_decide_eq_true in Hnil. subst. unfold len; simpl; lia.
    - apply Z.leb_le in Hle. lia. }
  apply orb_false_iff in Hguard as [_ Hpos%Z.leb_gt].
  destruct (len tokens <=? budget) eqn:Hfit; simpl.
  { rewrite Htok; simpl. apply Z.leb_le in Hfit. by split. }
  set (ak_set := list_to_set always_keep : gset string) in *.
  assert (Hkeep : ∀ t, t ∈ always_keep → t ∈ tokens → t ∈ ak_part ak_set tokens).
  { intros t Ht Hin. apply elem_of_ak_part. split; [|done].
    subst ak_set. by apply elem_of_list_to_set. }
  destruct (len (other_part ak_set tokens) =? 0) eqn:Hother; simpl.
  { split; [intros _; apply len_slice_to; lia|].
    intros t Ht Hin. unfold slice_to.
    rewrite take_ge; [by apply Hkeep|]. unfold len in Hak. lia. }
  match goal with
  | |- context [ak_part ak_set tokens ++ ?s] => generalize s; intros sampled
  end.
  destruct (budget <? len (ak_part ak_set tokens ++ sampled)) eqn:Hcut; simpl.
  - split; [intros _; apply len_slice_to; lia|].
    intros t Ht Hin. apply slice_to_keeps_prefix; [done | by apply Hkeep].
  - apply Z.ltb_ge in Hcut. split; [done|].
    intros t Ht Hin. apply elem_of_app. left. by apply Hkeep.
Qed.

Lemma sampling_within_budget_witness :
  budget_guarantee half (with_tokens ["a"; "or"; "b"; "c"]%string) 2
    ["or"; "union"]%string.
Proof.
  destruct (sampling_within_budget half
              (with_tokens ["a"; "or"; "b"; "c"]%string) 2
              ["or"; "union"]%string) as [Hlen Hkeep].
  - vm_compute. discriminate.
  - split; [apply Hlen; lia | exact Hkeep].
Defined.

(** C1, as stated, fails at budget 0: a list without always-keep tokens
    meets the condition on the budget and is returned as it is. *)
Lemma sampling_budget_zero_counterexample :
  always_keep_count [] (tokens_of (with_tokens ["x"%string])) <= 0 ∧
  ¬ budget_guarantee half (with_tokens ["x"%string]) 0 [].
Proof.
  split.
  - vm_compute. discriminate.
  - intros [Hlen _]. vm_compute in Hlen. by apply Hlen.
Qed.

(** A run in which the draws overshoot: with budget 3 the probability is
    2/3, every draw of one half keeps its token, and the merged list is
    cut to the budget. *)
Example sampling_run :
  apply_http_binomial_sampling half (with_tokens ["a"; "or"; "b"; "c"]%string) 3
    ["or"; "union"]%string
  = (true, with_tokens ["or"; "a"; "b"]%string).
Proof. vm_compute. reflexivity. Qed.

(** The budget is compared with the number of entries that are always-keep
    tokens, repetitions included: when a token is repeated beyond the
    budget, the cut can drop a later always-keep token. *)
Example repeated_always_keep_run :
  always_keep_count ["or"; "union"]%string ["or"; "or"; "union"]%string = 3 ∧
  apply_http_binomial_sampling half (with_tokens ["or"; "or"; "union"]%string) 2
    ["or"; "union"]%string
  = (true, with_tokens ["or"; "or"]%string).
Proof. vm_compute. done. Qed.

(** C10. [apply_http_binomial_sampling] returns False exactly when the
    token list is absent or empty, the budget is at most 0, or the list is
    within the budget, and then it leaves the aggregate as it was; when it
    returns True the aggregate differs from the input in
    [http_uri_tokens] only. *)
Theorem sampling_frame rnd agg budget always_keep :
  let r := apply_http_binomial_sampling rnd agg budget always_keep in
  r.2 = (if r.1 then set_http_uri_tokens agg (tokens_of r.2) else agg) ∧
  r.1 = negb (bool_decide (tokens_of agg = []) || (budget <=? 0)
              || (len (tokens_of agg) <=? budget)).
Proof.
  unfold apply_http_binomial_sampling, tokens_of.
  destruct (http_uri_tokens agg) as [tokens|]; simpl; [|done].
  destruct (bool_decide (tokens = []) || (budget <=? 0)); simpl; [done|].
  destruct (len tokens <=? budget); simpl; [done|].
  destruct (len _ =? 0); simpl; done.
Qed.

(** The two outcomes of C10 on concrete aggregates. *)
Example sampling_frame_untouched :
  apply_http_binomial_sampling half (with_tokens ["a"; "b"]%string) 2 []
  = (false, with_tokens ["a"; "b"]%string).
Proof. vm_compute. reflexivity. Qed.

Example sampling_frame_absent :
  apply_http_binomial_sampling half (_new_aggregate web_key 0) 2 []
  = (false, _new_aggregate web_key 0).
Proof. vm_compute. reflexivity. Qed.

End SamplingFacts.

(** ** Payload previews *)

Module FeaturesFacts.

Import Examples.

(** One call: the buffer of direction [d] takes the preview of a packet of
    that direction while it is below the cap, and is left alone otherwise. *)
Lemma buffer_update_aggregate d a pkt dir :
  buffer d (update_aggregate a pkt dir) =
  match (if decide (dir = d) then truthy_preview pkt else None) with
  | Some preview =>
      if (length (buffer d a) <? _MAX_PREVIEWS_PER_DIR)%nat
      then buffer d a ++ [preview] else buffer d a
  | None => buffer d a
  end.
Proof.
  unfold buffer, update_aggregate.
  destruct d, dir; simpl; destruct (truthy_preview pkt); simpl; try done.
Qed.

(** A sequence of calls on any aggregate: nothing is evicted, and previews
    are appended up to the cap. *)
Lemma buffer_update_all d calls : ∀ a,
  buffer d (update_all a calls) =
  take (Nat.max _MAX_PREVIEWS_PER_DIR (length (buffer d a)))
       (buffer d a ++ offered d calls).
Proof.
  induction calls as [|c calls IH]; intros a.
  - simpl. rewrite app_nil_r, take_ge; [done | lia].
  - change (update_all a (c :: calls))
      with (update_all (update_aggregate a c.1 c.2) calls).
    rewrite IH, buffer_update_aggregate. unfold offered; simpl.
    destruct (decide (c.2 = d)) as [_|_]; simpl; [|done].
    destruct (truthy_preview c.1) as [preview|]; simpl; [|done].
    destruct (length (buffer d a) <? _MAX_PREVIEWS_PER_DIR)%nat eqn:Hcap.
    + apply Nat.ltb_lt in Hcap.
      rewrite length_app; simpl. rewrite <- app_assoc; simpl.
      f_equal. lia.
    + apply Nat.ltb_ge in Hcap.
      rewrite Nat.max_r by done.
      by rewrite !take_app_length.
Qed.

(** C9. After any sequence of [update_aggregate] calls on an aggregate
    made by [_new_aggregate], the preview buffer of each direction is the
    first 12 previews offered to that direction, so it holds at most 12;
    further calls leave the previews it holds where they are and append
    only while it is below 12. *)
Theorem preview_buffer_front_loaded d key ts calls more :
  let a := update_all (_new_aggregate key ts) calls in
  buffer d a = take _MAX_PREVIEWS_PER_DIR (offered d calls) ∧
  (length (buffer d a) ≤ _MAX_PREVIEWS_PER_DIR)%nat ∧
  buffer d (update_all a more) =
    take _MAX_PREVIEWS_PER_DIR (buffer d a ++ offered d more).
Proof.
  intros a.
  assert (Hbuf : buffer d a = take _MAX_PREVIEWS_PER_DIR (offered d calls)).
  { subst a. rewrite buffer_update_all. by destruct d. }
  assert (Hlen : (length (buffer d a) ≤ _MAX_PREVIEWS_PER_DIR)%nat).
  { rewrite Hbuf, length_take. lia. }
  split_and!; [done | done |].
  rewrite buffer_update_all. by rewrite Nat.max_l.
Qed.

(** A buffer at the cap stays as it is, whatever is offered next. *)
Corollary full_buffer_is_final d key ts calls more :
  let a := update_all (_new_aggregate key ts) calls in
  length (buffer d a) = _MAX_PREVIEWS_PER_DIR →
  buffer d (update_all a more) = buffer d a.
Proof.
  intros a Hfull.
  rewrite buffer_update_all, Nat.max_r by lia.
  apply take_app_length.
Qed.

(** Fourteen previews offered, the first twelve kept. *)
Example twelve_of_fourteen :
  buffer up (update_all (_new_aggregate web_key 1) fourteen_requests)
  = take 12 (offered up fourteen_requests) ∧
  length (offered up fourteen_requests) = 14%nat ∧
  buffer dn (update_all (_new_aggregate web_key 1) fourteen_requests) = [].
Proof. vm_compute. done. Qed.

End FeaturesFacts.

(** ** Aggregate lifecycle *)

Module GroupingFacts.

Import Examples.

Local Open Scope Q_scope.

Lemma new_aggregate_ordered key ts : ordered (_new_aggregate key ts).
Proof. unfold ordered; simpl. lra. Qed.

Lemma update_aggregate_ordered a pkt dir :
  ordered a → ordered (update_aggregate a pkt dir).
Proof.
  unfold ordered; simpl. intros H.
  destruct (Qlt_le_dec (pkt_ts pkt) (first_ts a)),
           (Qlt_le_dec (last_ts a) (pkt_ts pkt)); lra.
Qed.

Lemma idle_exceeded_spec shard a ts :
  idle_exceeded shard a ts = true ↔ _idle shard < fsub ts (last_ts a).
Proof.
  unfold idle_exceeded.
  destruct (Qlt_le_dec (_idle shard) (fsub ts (last_ts a))); split; try done.
  intros. lra.
Qed.

(** The three outcomes of [get_or_create]. *)
Lemma get_or_create_new shard key ts :
  _open shard !! key = None →
  get_or_create shard key ts =
    (_new_aggregate key ts,
     {| _idle := _idle shard;
        _open := <[key := {| agg := _new_aggregate key ts |}]> (_open shard);
        _finalized := _finalized shard |}).
Proof. unfold get_or_create. by intros ->. Qed.

Lemma get_or_create_roll shard key ts entry :
  _open shard !! key = Some entry →
  idle_exceeded shard (agg entry) ts = true →
  get_or_create shard key ts =
    (_new_aggregate key ts,
     {| _idle := _idle shard;
        _open := <[key := {| agg := _new_aggregate key ts |}]> (_open shard);
        _finalized := _finalized shard ++ [agg entry] |}).
Proof. unfold get_or_create. by intros -> ->. Qed.

Lemma get_or_create_keep shard key ts entry :
  _open shard !! key = Some entry →
  idle_exceeded shard (agg entry) ts = false →
  get_or_create shard key ts = (agg entry, shard).
Proof. unfold get_or_create. by intros -> ->. Qed.

Lemma shard_ordered_aggregates shard :
  shard_ordered shard ↔ ∀ a, a ∈ aggregates shard → ordered a.
Proof.
  unfold shard_ordered, aggregates. split.
  - intros [Hfin Hopen] a [Ha|Ha]%elem_of_app; [by apply Hfin|].
    apply list_elem_of_fmap in Ha as (e & -> & He).
    apply list_elem_of_fmap in He as ([k e'] & -> & Hke).
    apply elem_of_map_to_list in Hke. by eapply Hopen.
  - intros H. split.
    + intros a Ha. apply H, elem_of_app. by left.
    + intros k e Hke. apply H, elem_of_app. right.
      apply list_elem_of_fmap. exists e. split; [done|].
      apply list_elem_of_fmap. exists (k, e). split; [done|].
      by apply elem_of_map_to_list.
Qed.

Lemma route_packet_ordered shard key pkt :
  shard_ordered shard → shard_ordered (route_packet shard key pkt).
Proof.
  intros [Hfin Hopen]. unfold route_packet.
  destruct (_open shard !! key) as [entry|] eqn:Hkey.
  - destruct (idle_exceeded shard (agg entry) (pkt_ts pkt)) eqn:Hidle.
    + rewrite (get_or_create_roll _ _ _ entry) by done. split; simpl.
      * intros a [Ha|Ha]%elem_of_app; [by apply Hfin|].
        apply list_elem_of_singleton in Ha as ->. by eapply Hopen.
      * intros k e. rewrite insert_insert_eq.
        intros [[-> <-]|[_ Hk]]%lookup_insert_Some; [|by eapply Hopen].
        apply update_aggregate_ordered, new_aggregate_ordered.
    + rewrite (get_or_create_keep _ _ _ entry) by done. split; simpl; [done|].
      intros k e.
      intros [[-> <-]|[_ Hk]]%lookup_insert_Some; [|by eapply Hopen].
      apply update_aggregate_ordered. by eapply Hopen.
  - rewrite get_or_create_new by done. split; simpl; [done|].
    intros k e. rewrite insert_insert_eq.
    intros [[-> <-]|[_ Hk]]%lookup_insert_Some; [|by eapply Hopen].
    apply update_aggregate_ordered, new_aggregate_ordered.
Qed.

Lemma route_stream_ordered stream : ∀ shard,
  shard_ordered shard → shard_ordered (route_stream shard stream).
Proof.
  induction stream as [|[k p] stream IH]; intros shard H; [done|].
  apply IH. by apply route_packet_ordered.
Qed.

Lemma roll_after_last shard key ts :
  0 <= _idle shard → roll_never_goes_back shard key ts.
Proof.
  intros Hidle entry Hkey Hroll.
  rewrite (get_or_create_roll _ _ _ entry) by done. simpl.
  apply idle_exceeded_spec in Hroll.
  apply Qlt_le_weak, Binary64Facts.fsub_pos. lra.
Qed.

(** C8, as amended. An aggregate made by [_new_aggregate] has
    [first_ts = last_ts]; [update_aggregate] keeps [first_ts <= last_ts]
    for any packet; routing packets keeps it for every aggregate a shard
    holds, open or closed; and when [idle_split_seconds] is not negative,
    an idle roll opens the new aggregate no earlier than the [last_ts] of
    the aggregate it closes. *)
Theorem aggregate_span_ordered shard key ts :
  first_ts (_new_aggregate key ts) = last_ts (_new_aggregate key ts) ∧
  (∀ a pkt dir,
      first_ts a <= last_ts a →
      first_ts (update_aggregate a pkt dir) <= last_ts (update_aggregate a pkt dir)) ∧
  (∀ stream,
      (∀ a, a ∈ aggregates shard → first_ts a <= last_ts a) →
      ∀ b, b ∈ aggregates (route_stream shard stream) →
           first_ts b <= last_ts b) ∧
  (0 <= _idle shard → roll_never_goes_back shard key ts).
Proof.
  split_and!.
  - done.
  - apply update_aggregate_ordered.
  - intros stream H. apply shard_ordered_aggregates, route_stream_ordered.
    by apply shard_ordered_aggregates.
  - apply roll_after_last.
Qed.

Lemma aggregate_span_ordered_witness :
  roll_never_goes_back
    (route_packet (init 120) web_key (packet_at 100)) web_key 300.
Proof.
  destruct (aggregate_span_ordered
              (route_packet (init 120) web_key (packet_at 100)) web_key 300)
    as (_ & _ & _ & Hroll).
  apply Hroll. vm_compute. discriminate.
Defined.

(** Every aggregate of a run that starts from an empty shard is ordered. *)
Corollary run_aggregates_ordered idle stream a :
  a ∈ aggregates (route_stream (init idle) stream) → first_ts a <= last_ts a.
Proof.
  revert a. apply shard_ordered_aggregates, route_stream_ordered.
  split; [by intros a Ha%elem_of_nil | by intros k e Hk].
Qed.

(** C8, as stated, fails for a negative [idle_split_seconds]: with -10,
    a packet at 95 after one at 100 rolls, and the new aggregate starts
    before the closed one ended. *)
Lemma roll_goes_back_counterexample :
  ¬ roll_never_goes_back
      (route_packet (init (-10)) web_key (packet_at 100)) web_key 95.
Proof.
  intros H.
  specialize (H {| agg := update_aggregate (_new_aggregate web_key 100)
                            (packet_at 100) up |}).
  vm_compute in H.
  specialize (H eq_refl eq_refl). by apply H.
Qed.

End GroupingFacts.

(** ** Idle roll *)

Module IdleRollFacts.

Import Examples GroupingFacts.

Local Open Scope Q_scope.

Lemma chronological_weaken prev prev' tss :
  prev' <= prev → chronological prev tss → chronological prev' tss.
Proof. destruct tss; simpl; [done|]. intros ? [? ?]. split; [lra | done]. Qed.

Lemma update_aggregate_pkts_total a pkt dir :
  (pkts_total (update_aggregate a pkt dir) = pkts_total a + 1)%Z.
Proof. unfold pkts_total. destruct dir; simpl; lia. Qed.

Lemma update_new_aggregate_span key pkt dir :
  first_ts (update_aggregate (_new_aggregate key (pkt_ts pkt)) pkt dir) = pkt_ts pkt ∧
  last_ts (update_aggregate (_new_aggregate key (pkt_ts pkt)) pkt dir) = pkt_ts pkt.
Proof. simpl. split; by destruct (Qlt_le_dec _ _). Qed.

(** One packet on a shard that holds one open aggregate. *)
Lemma route_packet_one_open idle key a closed pkt :
  route_packet (one_open idle key a closed) key pkt =
  if Qlt_le_dec idle (fsub (pkt_ts pkt) (last_ts a))
  then one_open idle key
         (update_aggregate (_new_aggregate key (pkt_ts pkt)) pkt
            (group_direction pkt key))
         (closed ++ [a])
  else one_open idle key (update_aggregate a pkt (group_direction pkt key)) closed.
Proof.
  unfold route_packet, get_or_create, one_open, idle_exceeded; simpl.
  rewrite lookup_singleton_eq; simpl.
  destruct (Qlt_le_dec idle (fsub (pkt_ts pkt) (last_ts a))); simpl.
  - by rewrite insert_insert_eq, insert_singleton_eq.
  - by rewrite insert_singleton_eq.
Qed.

(** The first packet of a key. *)
Lemma route_packet_init idle key pkt :
  route_packet (init idle) key pkt =
  one_open (float_of_int idle) key
    (update_aggregate (_new_aggregate key (pkt_ts pkt)) pkt
       (group_direction pkt key)) [].
Proof.
  unfold route_packet, get_or_create, one_open, init; simpl.
  rewrite lookup_empty; simpl.
  by rewrite insert_insert_eq, insert_empty.
Qed.

Lemma route_all_cons shard key pkt pkts :
  route_all shard key (pkt :: pkts) = route_all (route_packet shard key pkt) key pkts.
Proof. reflexivity. Qed.

(** Chronological packets without a gap extend the open aggregate and
    close nothing. *)
Lemma route_all_no_gap idle key pkts : ∀ a closed,
  ordered a →
  chronological (last_ts a) (pkt_ts <$> pkts) →
  idle_gaps idle (last_ts a) (pkt_ts <$> pkts) = 0%nat →
  ∃ a',
    route_all (one_open idle key a closed) key pkts = one_open idle key a' closed ∧
    first_ts a' = first_ts a ∧
    (pkts_total a' = pkts_total a + Z.of_nat (length pkts))%Z.
Proof.
  induction pkts as [|pkt pkts IH]; intros a closed Hord Hchr Hgaps.
  - exists a. simpl. split_and!; [done | done | lia].
  - rewrite route_all_cons, route_packet_one_open.
    rewrite fmap_cons in Hchr, Hgaps. simpl in Hchr, Hgaps.
    destruct Hchr as [Hle Hchr].
    destruct (Qlt_le_dec idle (fsub (pkt_ts pkt) (last_ts a))); [done|].
    set (a1 := update_aggregate a pkt (group_direction pkt key)).
    destruct (IH a1 closed) as (a' & Hrun & Hfirst & Hcount).
    + by apply update_aggregate_ordered.
    + eapply chronological_weaken; [|exact Hchr].
      subst a1; simpl. destruct (Qlt_le_dec (last_ts a) (pkt_ts pkt)); lra.
    + exact Hgaps.
    + exists a'. split_and!; [done | |].
      * rewrite Hfirst. subst a1; simpl. unfold ordered in Hord.
        destruct (Qlt_le_dec (pkt_ts pkt) (first_ts a)); [lra | done].
      * rewrite Hcount. subst a1. rewrite update_aggregate_pkts_total.
        rewrite length_cons. lia.
Qed.

(** Chronological packets with one gap close one aggregate and leave one
    open, which starts after the closed one ended. *)
Lemma route_all_one_gap idle key pkts : ∀ a closed,
  0 <= idle →
  ordered a →
  chronological (last_ts a) (pkt_ts <$> pkts) →
  idle_gaps idle (last_ts a) (pkt_ts <$> pkts) = 1%nat →
  ∃ a1 a2,
    route_all (one_open idle key a closed) key pkts
      = one_open idle key a2 (closed ++ [a1]) ∧
    (pkts_total a1 + pkts_total a2 = pkts_total a + Z.of_nat (length pkts))%Z ∧
    last_ts a1 < first_ts a2.
Proof.
  induction pkts as [|pkt pkts IH]; intros a closed Hidle Hord Hchr Hgaps;
    [done|].
  rewrite route_all_cons, route_packet_one_open.
  rewrite fmap_cons in Hchr, Hgaps. simpl in Hchr, Hgaps.
  destruct Hchr as [Hle Hchr].
  destruct (Qlt_le_dec idle (fsub (pkt_ts pkt) (last_ts a))) as [Hgap|Hnear].
  - set (a0 := update_aggregate (_new_aggregate key (pkt_ts pkt)) pkt
                 (group_direction pkt key)).
    destruct (update_new_aggregate_span key pkt (group_direction pkt key))
      as [Hfirst0 Hlast0]. fold a0 in Hfirst0, Hlast0.
    destruct (route_all_no_gap idle key pkts a0 (closed ++ [a]))
      as (a' & Hrun & Hfirst & Hcount).
    + apply update_aggregate_ordered, new_aggregate_ordered.
    + by rewrite Hlast0.
    + rewrite Hlast0. by injection Hgaps.
    + exists a, a'. split_and!; [done | |].
      * rewrite Hcount. subst a0. rewrite update_aggregate_pkts_total.
        rewrite length_cons. unfold pkts_total; simpl. lia.
      * rewrite Hfirst, Hfirst0. apply Binary64Facts.fsub_pos. lra.
  - set (a0 := update_aggregate a pkt (group_direction pkt key)).
    destruct (IH a0 closed) as (a1 & a2 & Hrun & Hcount & Hsep); try done.
    + by apply update_aggregate_ordered.
    + eapply chronological_weaken; [|exact Hchr].
      subst a0; simpl. destruct (Qlt_le_dec (last_ts a) (pkt_ts pkt)); lra.
    + exists a1, a2. split_and!; [done | | done].
      rewrite Hcount. subst a0. rewrite update_aggregate_pkts_total.
      rewrite length_cons. lia.
Qed.

Lemma finalize_all_one_open idle key a closed hour_end :
  (finalize_all (one_open idle key a closed) hour_end).1 = closed ++ [a].
Proof.
  unfold finalize_all, one_open; simpl. by rewrite map_to_list_singleton.
Qed.

(** Packets in any order: each gap closes one aggregate, and every packet
    is counted by the aggregate open at its arrival. *)
Lemma route_all_gaps idle key pkts : ∀ a closed,
  ∃ a' rolled,
    route_all (one_open idle key a closed) key pkts
      = one_open idle key a' (closed ++ rolled) ∧
    length rolled = idle_gaps idle (last_ts a) (pkt_ts <$> pkts) ∧
    (pkts_sum rolled + pkts_total a' = pkts_total a + Z.of_nat (length pkts))%Z.
Proof.
  induction pkts as [|pkt pkts IH]; intros a closed.
  - exists a, []. rewrite app_nil_r. simpl. split_and!; [done | done | lia].
  - rewrite route_all_cons, route_packet_one_open, fmap_cons. simpl.
    destruct (Qlt_le_dec idle (fsub (pkt_ts pkt) (last_ts a))) as [Hgap|Hnear].
    + set (a0 := update_aggregate (_new_aggregate key (pkt_ts pkt)) pkt
                   (group_direction pkt key)).
      destruct (update_new_aggregate_span key pkt (group_direction pkt key))
        as [_ Hlast0]. fold a0 in Hlast0.
      destruct (IH a0 (closed ++ [a])) as (a' & rolled & Hrun & Hlen & Hcount).
      exists a', (a :: rolled). split_and!.
      * by rewrite Hrun, <- app_assoc.
      * simpl. by rewrite Hlen, Hlast0.
      * simpl. subst a0. rewrite update_aggregate_pkts_total in Hcount.
        unfold pkts_total in Hcount at 2; simpl in Hcount. lia.
    + destruct (IH (update_aggregate a pkt (group_direction pkt key)) closed)
        as (a' & rolled & Hrun & Hlen & Hcount).
      exists a', rolled. split_and!; [done | done |].
      rewrite update_aggregate_pkts_total in Hcount. lia.
Qed.

(** C2, as amended. When a packet arrives for an open aggregate and the
    test of the code holds, that is when [ts - last_ts], the difference of
    the two floats, exceeds [float(idle_split_seconds)], [get_or_create]
    closes that aggregate and opens one at the packet's timestamp for the
    same key. Consequently packets of one key with exactly one such gap
    yield exactly two aggregates, whose packet counts add up to the number
    of packets; when moreover [idle_split_seconds] is not negative and the
    packets arrive in chronological order, the spans of the two do not
    overlap. *)
Theorem idle_roll_two_slices idle key pkt pkts hour_end :
  idle_gaps (float_of_int idle) (pkt_ts pkt) (pkt_ts <$> pkts) = 1%nat →
  (∃ a1 a2,
      run_one_key idle key (pkt :: pkts) hour_end = [a1; a2] ∧
      (pkts_total a1 + pkts_total a2 = Z.of_nat (length (pkt :: pkts)))%Z) ∧
  ((0 <= idle)%Z →
   chronological (pkt_ts pkt) (pkt_ts <$> pkts) →
   two_slices idle key (pkt :: pkts) hour_end) ∧
  (∀ shard entry ts,
      _open shard !! key = Some entry →
      _idle shard < fsub ts (last_ts (agg entry)) →
      get_or_create shard key ts =
        (_new_aggregate key ts,
         {| _idle := _idle shard;
            _open := <[key := {| agg := _new_aggregate key ts |}]> (_open shard);
            _finalized := _finalized shard ++ [agg entry] |})).
Proof.
  intros Hgaps.
  set (a0 := update_aggregate (_new_aggregate key (pkt_ts pkt)) pkt
               (group_direction pkt key)).
  destruct (update_new_aggregate_span key pkt (group_direction pkt key))
    as [Hfirst0 Hlast0]. fold a0 in Hfirst0, Hlast0.
  assert (pkts_total a0 = 1%Z) as Hone.
  { subst a0. by rewrite update_aggregate_pkts_total. }
  split_and!.
  - unfold run_one_key. rewrite route_all_cons, route_packet_init. fold a0.
    destruct (route_all_gaps (float_of_int idle) key pkts a0 [])
      as (a2 & rolled & Hrun & Hlen & Hcount).
    rewrite Hlast0, Hgaps in Hlen.
    destruct rolled as [|a1 [|? ?]]; try done.
    exists a1, a2. rewrite Hrun, finalize_all_one_open. split; [done|].
    simpl in Hcount. rewrite length_cons. lia.
  - intros Hidle Hchr. unfold two_slices, run_one_key.
    rewrite route_all_cons, route_packet_init. fold a0.
    destruct (route_all_one_gap (float_of_int idle) key pkts a0 [])
      as (a1 & a2 & Hrun & Hcount & Hsep).
    + apply Binary64Facts.round_nonneg.
      change 0 with (inject_Z 0). by rewrite <- Zle_Qle.
    + apply update_aggregate_ordered, new_aggregate_ordered.
    + by rewrite Hlast0.
    + by rewrite Hlast0.
    + exists a1, a2. rewrite Hrun, finalize_all_one_open. split_and!.
      * done.
      * rewrite Hcount, length_cons. lia.
      * by left.
  - intros shard entry ts Hopen Hgap.
    apply get_or_create_roll; [done|]. by apply idle_exceeded_spec.
Qed.

Lemma idle_roll_two_slices_witness :
  two_slices 120 web_key
    [packet_at 0; packet_at 1; packet_at 200; packet_at 201] 3600.
Proof.
  destruct (idle_roll_two_slices 120 web_key (packet_at 0)
              [packet_at 1; packet_at 200; packet_at 201] 3600)
    as (_ & Hspans & _).
  - vm_compute. reflexivity.
  - apply Hspans.
    + lia.
    + simpl. unfold Qle; simpl. lia.
Defined.

(** C2, as stated, fails when packets arrive out of order: with the
    default 120 seconds, packets at 0, 10, 200 and 5 have exactly one
    gap, and the two aggregates span [0, 10] and [5, 200]. *)
Lemma out_of_order_counterexample :
  idle_gaps (float_of_int 120) 0 [10; 200; 5] = 1%nat ∧
  ¬ two_slices 120 web_key
      [packet_at 0; packet_at 10; packet_at 200; packet_at 5] 3600.
Proof.
  split; [vm_compute; reflexivity|].
  intros (a1 & a2 & Hrun & _ & Hspans).
  vm_compute in Hrun. injection Hrun as <- <-.
  destruct Hspans as [H|H]; vm_compute in H; discriminate.
Qed.

(** The same run, evaluated. *)
Example out_of_order_run :
  (λ a, (first_ts a, last_ts a, pkts_total a)) <$>
    run_one_key 120 web_key
      [packet_at 0; packet_at 10; packet_at 200; packet_at 5] 3600
  = [(0, 10, 2%Z); (5, 200, 2%Z)].
Proof. vm_compute. reflexivity. Qed.

(** A gap is what the test of the code sees. Packets at the doubles
    nearest to 0.7 and to 120.7 are more than 120 seconds apart, but their
    difference as floats is 120: with the default 120 seconds there is no
    roll, and the run yields one aggregate. *)
Example round_off_hides_a_gap :
  let t0 := binary64 6305039478318694 (- 53) in
  let t1 := binary64 8493507422244045 (- 46) in
  120 < t1 - t0 ∧
  idle_gaps (float_of_int 120) t0 [t1] = 0%nat ∧
  length (run_one_key 120 web_key [packet_at t0; packet_at t1] 3600) = 1%nat.
Proof. repeat split; vm_compute; reflexivity. Qed.

(** With a negative [idle_split_seconds] chronological packets are not
    enough either: two packets at the same instant are split into two
    aggregates with the same span. *)
Lemma negative_idle_counterexample :
  chronological 5 [5] ∧ idle_gaps (float_of_int (-1)) 5 [5] = 1%nat ∧
  ¬ two_slices (-1) web_key [packet_at 5; packet_at 5] 3600.
Proof.
  split_and!; [simpl; split; [lra | done] | vm_compute; reflexivity |].
  intros (a1 & a2 & Hrun & _ & Hspans).
  vm_compute in Hrun. injection Hrun as <- <-.
  destruct Hspans as [H|H]; vm_compute in H; discriminate.
Qed.

(** The same run, evaluated. *)
Example negative_idle_run :
  (λ a, (first_ts a, last_ts a, pkts_total a)) <$>
    run_one_key (-1) web_key [packet_at 5; packet_at 5] 3600
  = [(5, 5, 1%Z); (5, 5, 1%Z)].
Proof. vm_compute. reflexivity. Qed.

End IdleRollFacts.

(** ** Scan gate *)

Module ScanFacts.

Import Scan Examples.

(** Testing a flag with a one-bit mask reads that bit. *)
Lemma has_flag_testbit flags n :
  0 <= n → has_flag flags (2 ^ n) = Z.testbit flags n.
Proof.
  intros Hn. unfold has_flag.
  destruct (Z.testbit flags n) eqn:Hbit.
  - apply negb_true_iff, Z.eqb_neq. intros Hzero.
    assert (Z.testbit (Z.land flags (2 ^ n)) n = true) as Habs.
    { by rewrite Z.land_spec, Hbit, Z.pow2_bits_true. }
    rewrite Hzero, Z.bits_0 in Habs. done.
  - apply negb_false_iff, Z.eqb_eq, Z.bits_inj'. intros m Hm.
    rewrite Z.land_spec, Z.bits_0, Z.pow2_bits_eqb by done.
    destruct (Z.eqb_spec n m) as [<-|]; [by rewrite Hbit | apply andb_false_r].
Qed.

Lemma syn_only_testbit flags :
  syn_only flags = Z.testbit flags 1 && negb (Z.testbit flags 4).
Proof.
  unfold syn_only.
  change _TCP_SYN with (2 ^ 1). change _TCP_ACK with (2 ^ 4).
  by rewrite !has_flag_testbit.
Qed.

Lemma lookup_observe_packet self pkt key src :
  _by_src (observe_packet self pkt key) !! src =
  if decide (src_ip key = src)
  then Some (observe_stats (_sample_cap self) (stats_of self src) pkt key)
  else _by_src self !! src.
Proof.
  unfold observe_packet, stats_of; simpl. rewrite lookup_insert.
  by destruct (decide (src_ip key = src)) as [->|].
Qed.

(** C6, as amended. [observe_packet] updates the statistics of the source
    IP of the GroupKey it is given: that source's destination set gains
    the key's destination IP, its port set gains the key's destination
    port, and, when the packet is TCP, its TCP packet count goes up by one
    and its SYN-only count goes up by one exactly when the packet has SYN
    set and ACK not set. The statistics of every other source are left
    as they were. *)
Theorem observe_packet_counts_for_key self pkt key :
  counted_for self pkt key (src_ip key) (dst_ip key) (dst_port key) ∧
  ∀ src, src ≠ src_ip key →
         _by_src (observe_packet self pkt key) !! src = _by_src self !! src.
Proof.
  split.
  - unfold counted_for. eexists. rewrite lookup_observe_packet.
    rewrite decide_True by done. split; [done|]. cbn -[Z.testbit].
    split_and!; try done.
    destruct (pkt_tcp_flags pkt) as [flags|]; [|done].
    rewrite <- syn_only_testbit. by destruct (syn_only flags).
  - intros src Hne. rewrite lookup_observe_packet.
    by rewrite decide_False.
Qed.

Lemma observe_packet_counts_for_key_witness :
  counted_for (gate 50) (reply_at 1) web_key "10.0.0.1" "10.0.0.2" 80 ∧
  ∀ src, src ≠ "10.0.0.1"%string →
         _by_src (observe_packet (gate 50) (reply_at 1) web_key) !! src
         = _by_src (gate 50) !! src.
Proof. exact (observe_packet_counts_for_key (gate 50) (reply_at 1) web_key). Defined.

(** C6, as stated, fails for a packet whose addresses are not those of
    its key: the answer of the server is counted for the client, the
    source of the key, and the gate holds nothing for the server. *)
Lemma observe_packet_source_counterexample :
  ¬ counted_for (gate 50) (reply_at 1) web_key
      (pkt_src_ip (reply_at 1)) (pkt_dst_ip (reply_at 1))
      (pkt_dst_port (reply_at 1)).
Proof.
  intros (after & Hlookup & _).
  rewrite lookup_observe_packet in Hlookup. done.
Qed.

(** When the key carries the addresses of the packet, the statistics
    updated are those of the packet's source. *)
Lemma observe_packet_counts_for_packet self pkt key :
  src_ip key = pkt_src_ip pkt →
  dst_ip key = pkt_dst_ip pkt →
  dst_port key = pkt_dst_port pkt →
  counted_for self pkt key (pkt_src_ip pkt) (pkt_dst_ip pkt) (pkt_dst_port pkt).
Proof.
  intros <- <- <-. unfold counted_for. eexists.
  rewrite lookup_observe_packet, decide_True by done. split; [done|]. cbn -[Z.testbit].
  split_and!; try done.
  destruct (pkt_tcp_flags pkt) as [flags|]; [|done].
  rewrite <- syn_only_testbit. by destruct (syn_only flags).
Qed.

(** *** Candidates *)

Lemma candidates_spec self src :
  src ∈ candidates self ↔
  ∃ s, _by_src self !! src = Some s ∧ exceeds (_threshold self) s.
Proof.
  unfold candidates. rewrite list_elem_of_fmap. split.
  - intros ([k s] & -> & Hin).
    apply list_elem_of_filter in Hin as [Hex Hin].
    apply elem_of_map_to_list in Hin. eauto.
  - intros (s & Hlookup & Hex). exists (src, s). split; [done|].
    apply list_elem_of_filter. split; [done|].
    by apply elem_of_map_to_list.
Qed.

Lemma observe_all_cons self o obs :
  observe_all self (o :: obs) = observe_all (observe_packet self o.1 o.2) obs.
Proof. reflexivity. Qed.

Lemma threshold_observe_all obs : ∀ self,
  _threshold (observe_all self obs) = _threshold self.
Proof.
  induction obs as [|o obs IH]; intros self; [done|].
  by rewrite observe_all_cons, IH.
Qed.

Lemma observations_of_cons src o obs :
  observations_of src (o :: obs) =
  if decide (src_ip o.2 = src) then o :: observations_of src obs
  else observations_of src obs.
Proof. unfold observations_of. by rewrite filter_cons. Qed.

(** The gate tracks the sources it has observed, and no other. *)
Lemma tracked_observe_all src obs : ∀ self,
  is_Some (_by_src (observe_all self obs) !! src) ↔
  is_Some (_by_src self !! src) ∨ observations_of src obs ≠ [].
Proof.
  induction obs as [|o obs IH]; intros self.
  - simpl. split; [by left | by intros [?|?]].
  - rewrite observe_all_cons, IH, lookup_observe_packet, observations_of_cons.
    destruct (decide (src_ip o.2 = src)); [|done].
    split; [intros _; by right | intros _; by left].
Qed.

(** The destination set of a source is what it has contacted. *)
Lemma contacted_observe_all src obs : ∀ self,
  unique_dsts (stats_of (observe_all self obs) src) =
  contacted src obs ∪ unique_dsts (stats_of self src).
Proof.
  induction obs as [|o obs IH]; intros self.
  - unfold contacted; simpl. by rewrite (left_id_L ∅ (∪)).
  - rewrite observe_all_cons, IH. unfold contacted.
    rewrite observations_of_cons. unfold stats_of at 1.
    rewrite lookup_observe_packet.
    destruct (decide (src_ip o.2 = src)); simpl; [|done].
    by rewrite (assoc_L (∪)), (comm_L (∪) {[dst_ip o.2]}).
Qed.

(** C4. A source IP that the gate tracks is returned by [candidates] if
    and only if the size of its destination set is strictly above the
    threshold: at exactly the threshold it is not a candidate, at one
    more it is. After a sequence of observations the destination set of a
    source is the set of destinations it has contacted. *)
Theorem candidate_iff_above_threshold self src :
  (src ∈ candidates self ↔
     ∃ s, _by_src self !! src = Some s ∧
          _threshold self < Z.of_nat (size (unique_dsts s))) ∧
  (∀ s, _by_src self !! src = Some s →
        Z.of_nat (size (unique_dsts s)) = _threshold self →
        src ∉ candidates self) ∧
  (∀ s, _by_src self !! src = Some s →
        Z.of_nat (size (unique_dsts s)) = _threshold self + 1 →
        src ∈ candidates self) ∧
  (∀ obs,
      src ∈ candidates (observe_all self obs) ↔
      (is_Some (_by_src self !! src) ∨ observations_of src obs ≠ []) ∧
      _threshold self <
        Z.of_nat (size (contacted src obs ∪ unique_dsts (stats_of self src)))).
Proof.
  split_and!.
  - apply candidates_spec.
  - intros s Hs Hsize. rewrite candidates_spec. unfold exceeds.
    intros (s' & Hs' & Hlt). simplify_eq. lia.
  - intros s Hs Hsize. apply candidates_spec. exists s.
    split; [done|]. unfold exceeds. lia.
  - intros obs.
    rewrite candidates_spec, threshold_observe_all.
    rewrite <- tracked_observe_all, <- contacted_observe_all.
    unfold exceeds, stats_of, is_Some. split.
    + intros (s & Hs & Hlt). rewrite Hs. eauto.
    + intros [[s Hs] Hlt]. rewrite Hs in Hlt. eauto.
Qed.

(** The boundary, evaluated: with threshold 2, the source that contacted
    two destinations is not a candidate and the one that contacted three
    is. *)
Example candidates_at_the_boundary :
  candidates
    (observe_all (gate 2)
       [(packet_at 1, key_to "10.0.0.8" "10.1.0.1");
        (packet_at 2, key_to "10.0.0.8" "10.1.0.2");
        (packet_at 3, key_to "10.0.0.8" "10.1.0.1");
        (packet_at 4, key_to "10.0.0.9" "10.1.0.1");
        (packet_at 5, key_to "10.0.0.9" "10.1.0.2");
        (packet_at 6, key_to "10.0.0.9" "10.1.0.3")])
  = ["10.0.0.9"%string].
Proof. vm_compute. reflexivity. Qed.

(** *** The split *)

(** C5. When fewer than 3 candidates exist, [split_repetitive_vs_outliers]
    returns no ScanSummary, an empty set of repetitive sources and all
    candidates as outliers, whatever the anomaly model would answer. *)
Theorem few_candidates_are_outliers fit_predict self :
  (length (candidates self) < 3)%nat →
  split_repetitive_vs_outliers fit_predict self =
    ({| _summaries := []; source_ips := ∅ |}, list_to_set (candidates self)).
Proof.
  intros Hfew. unfold split_repetitive_vs_outliers.
  case_bool_decide as Hnil; [by rewrite Hnil|].
  rewrite length_fmap.
  by apply Nat.ltb_lt in Hfew as ->.
Qed.

Lemma few_candidates_are_outliers_witness :
  split_repetitive_vs_outliers all_inliers two_scanners =
    ({| _summaries := []; source_ips := ∅ |},
     list_to_set (candidates two_scanners)).
Proof.
  apply (few_candidates_are_outliers all_inliers two_scanners).
  vm_compute. lia.
Defined.

(** With exactly two candidates both sources are outliers. *)
Example two_candidates_split :
  length (candidates two_scanners) = 2%nat ∧
  split_repetitive_vs_outliers all_inliers two_scanners =
    ({| _summaries := []; source_ips := ∅ |},
     {["10.0.0.8"; "10.0.0.9"]}%string).
Proof.
  split; vm_compute; reflexivity.
Qed.

End ScanFacts.

(** ** Segment validation *)

Module ValidatorFacts.

Import Validator Examples.

Lemma looks_like_uncompressed_pcap_spec (head : bytes) :
  (4 ≤ length head)%nat →
  _looks_like_uncompressed_pcap head = true ↔
  take 4 head ∈ [MAGIC_PCAP_USEC_BE; MAGIC_PCAP_USEC_LE;
                 MAGIC_PCAP_NSEC_BE; MAGIC_PCAP_NSEC_LE; MAGIC_PCAPNG].
Proof.
  intros Hlen. unfold _looks_like_uncompressed_pcap.
  apply Nat.ltb_ge in Hlen as ->.
  case_bool_decide as Hpcap.
  - split; [intros _|done].
    rewrite !elem_of_cons in Hpcap. rewrite !elem_of_cons. tauto.
  - case_bool_decide as Hng.
    + split; [intros _|done]. rewrite !elem_of_cons. tauto.
    + split; [done|]. intros Hin. exfalso.
      pose proof (not_elem_of_nil (take 4 head)) as Hnil.
      rewrite !elem_of_cons in Hin. rewrite !elem_of_cons in Hpcap. tauto.
Qed.

(** The head read from a file of at least 24 bytes shows its magic. *)
Lemma head_of_content (content : bytes) n :
  (n ≤ 16)%nat → (24 ≤ length content)%nat →
  take n (take 16 content) = take n content ∧ (n ≤ length (take 16 content))%nat.
Proof.
  intros Hn Hlen. rewrite take_take, length_take.
  split; [f_equal; lia | lia].
Qed.

(** On a file that can be read, [validate_segment] returns, and returns
    True exactly when the file has at least 24 bytes and starts with a
    magic of the declared compressor. *)
Lemma validate_segment_readable fs seg content :
  has_nul (path seg) = false →
  fs (path seg) = Some (Regular content true) →
  ∃ b, validate_segment fs seg = Return b ∧
       (b = true ↔ (24 ≤ length content)%nat ∧ magic_matches (compressor seg) content).
Proof.
  intros Hnul Hfile. unfold validate_segment, os_stat_size, _read_head.
  rewrite Hnul, Hfile. simpl.
  destruct (Z.ltb_spec (Z.of_nat (length content)) 24) as [Hshort|Hlong].
  { exists false. split; [done|]. split; [done|]. intros [? _]. lia. }
  assert (24 ≤ length content)%nat as Hlen by lia.
  unfold magic_matches.
  destruct (String.eqb_spec (compressor seg) "none") as [->|Hnone].
  { eexists. split; [done|].
    destruct (head_of_content content 4) as [Htake Hhead]; [lia | done |].
    rewrite looks_like_uncompressed_pcap_spec, Htake by done.
    intuition congruence. }
  destruct (String.eqb_spec (compressor seg) "gzip") as [->|Hgzip].
  { eexists. split; [done|]. unfold _looks_like_gzip.
    destruct (head_of_content content 2) as [-> Hhead]; [lia | done |].
    apply Nat.leb_le in Hhead as ->. simpl.
    rewrite bool_decide_eq_true. intuition congruence. }
  destruct (String.eqb_spec (compressor seg) "zstd") as [->|Hzstd].
  { eexists. split; [done|]. unfold _looks_like_zstd.
    destruct (head_of_content content 4) as [-> Hhead]; [lia | done |].
    apply Nat.leb_le in Hhead as ->. simpl.
    rewrite bool_decide_eq_true. intuition congruence. }
  exists false. split; [done|]. intuition congruence.
Qed.

(** An [OSError] of [os.stat] is answered by False. *)
Lemma validate_segment_missing fs seg e :
  os_stat_size fs (path seg) = Raise e → is_OSError e = true →
  validate_segment fs seg = Return false.
Proof. unfold validate_segment. by intros -> ->. Qed.

(** A path with a NUL character makes [os.stat] raise [ValueError], which
    no handler catches. *)
Lemma validate_segment_nul fs seg :
  has_nul (path seg) = true → validate_segment fs seg = Raise ValueError.
Proof. intros H. unfold validate_segment, os_stat_size. by rewrite H. Qed.


(** C7, where the code departs from it: a well-formed capture of 24 bytes
    that the process may stat but not open makes [validate_segment]
    raise, where the claim has it return. *)
Theorem validate_segment_raises_on_unreadable :
  validate_segment capture_dir (segment "locked.pcap" "none")
  = Raise PermissionError.
Proof. reflexivity. Qed.

(** A path with a NUL character: [os.stat] itself raises. *)
Example validate_segment_raises_on_nul :
  validate_segment capture_dir
    (segment (String Ascii.zero "good.pcap") "none") = Raise ValueError.
Proof. reflexivity. Qed.

(** The same for a path that names a directory. *)
Example validate_segment_raises_on_directory :
  validate_segment capture_dir (segment "dir.pcap" "none")
  = Raise IsADirectoryError.
Proof. reflexivity. Qed.

(** The examples of C7 that the code meets. *)
Example validate_segment_examples :
  validate_segment capture_dir (segment "absent.pcap" "none") = Return false ∧
  validate_segment capture_dir (segment "empty.pcap" "none") = Return false ∧
  validate_segment capture_dir (segment "short.pcap" "none") = Return false ∧
  validate_segment capture_dir (segment "good.pcap" "none") = Return true ∧
  validate_segment capture_dir (segment "good.pcap" "gzip") = Return false ∧
  validate_segment capture_dir (segment "good.pcap" "zstd") = Return false ∧
  validate_segment capture_dir (segment "good.pcap" "lz4") = Return false.
Proof. repeat split. Qed.

End ValidatorFacts.

(** * Further properties *)

(** ** Grouping: direction, lookup and finalization *)

Module GroupingMore.

Import Examples GroupingFacts IdleRollFacts Measures.

Local Open Scope Z_scope.

(** X1. A packet is counted "dn" exactly when it goes from the key's
    destination to the key's source and these two differ; every other
    packet, also one between other hosts, is counted "up". *)
Theorem group_direction_dn pkt key :
  group_direction pkt key = dn ↔
  pkt_src_ip pkt = dst_ip key ∧ pkt_dst_ip pkt = src_ip key ∧
  src_ip key ≠ dst_ip key.
Proof.
  unfold group_direction.
  destruct (bool_decide_reflect
              (pkt_src_ip pkt = src_ip key ∧ pkt_dst_ip pkt = dst_ip key))
    as [[Hs Hd]|Hfwd].
  { split; [done|]. intros (H1 & H2 & Hne). congruence. }
  destruct (bool_decide_reflect
              (pkt_src_ip pkt = dst_ip key ∧ pkt_dst_ip pkt = src_ip key))
    as [[Hs Hd]|Hrev].
  - split; [intros _|done]. split_and!; [done | done |].
    intros Heq. apply Hfwd. split; congruence.
  - split; [done|]. intros (H1 & H2 & _). exfalso. by apply Hrev.
Qed.

(** The three outcomes of [get_or_create], by cases. *)
Lemma get_or_create_cases shard key ts :
  (_open shard !! key = None ∧
   get_or_create shard key ts =
     (_new_aggregate key ts,
      {| _idle := _idle shard;
         _open := <[key := {| agg := _new_aggregate key ts |}]> (_open shard);
         _finalized := _finalized shard |})) ∨
  (∃ entry, _open shard !! key = Some entry ∧
            idle_exceeded shard (agg entry) ts = true ∧
            get_or_create shard key ts =
              (_new_aggregate key ts,
               {| _idle := _idle shard;
                  _open := <[key := {| agg := _new_aggregate key ts |}]> (_open shard);
                  _finalized := _finalized shard ++ [agg entry] |})) ∨
  (∃ entry, _open shard !! key = Some entry ∧
            idle_exceeded shard (agg entry) ts = false ∧
            get_or_create shard key ts = (agg entry, shard)).
Proof.
  destruct (_open shard !! key) as [entry|] eqn:Hkey.
  - destruct (idle_exceeded shard (agg entry) ts) eqn:Hidle.
    + right; left. exists entry. split_and!; try done.
      by apply get_or_create_roll.
    + right; right. exists entry. split_and!; try done.
      by apply get_or_create_keep.
  - left. split; [done|]. by apply get_or_create_new.
Qed.

(** X2. After [get_or_create] the open entry of the key holds the
    aggregate that was returned, the entries of the other keys are as they
    were, the list of closed aggregates has only grown and the idle
    threshold is unchanged. *)
Theorem get_or_create_lookup shard key ts :
  let r := get_or_create shard key ts in
  _open r.2 !! key = Some {| agg := r.1 |} ∧
  (∀ k, k ≠ key → _open r.2 !! k = _open shard !! k) ∧
  _finalized shard `prefix_of` _finalized r.2 ∧
  _idle r.2 = _idle shard.
Proof.
  destruct (get_or_create_cases shard key ts)
    as [[Hkey ->]|[(entry & Hkey & Hidle & ->)|(entry & Hkey & Hidle & ->)]];
    simpl.
  - split_and!; [apply lookup_insert_eq | | done | done].
    intros k Hk. by apply lookup_insert_ne.
  - split_and!; [apply lookup_insert_eq | | by apply prefix_app_r | done].
    intros k Hk. by apply lookup_insert_ne.
  - split_and!; [by destruct entry | done | done | done].
Qed.

(** X3. With an idle threshold that is not negative, asking again for the
    same key at the same timestamp returns the same aggregate and leaves the
    shard as the first call left it: no second roll. *)
Theorem get_or_create_again shard key ts :
  (0 <= _idle shard)%Q →
  let r := get_or_create shard key ts in
  get_or_create r.2 key ts = r.
Proof.
  intros Hidle.
  assert (Hfresh : ∀ s, _idle s = _idle shard →
            idle_exceeded s (_new_aggregate key ts) ts = false).
  { intros s Hs. unfold idle_exceeded. rewrite Hs. simpl.
    rewrite Binary64Facts.fsub_diag.
    destruct (Qlt_le_dec (_idle shard) 0); [lra | done]. }
  destruct (get_or_create_cases shard key ts)
    as [[Hkey ->]|[(entry & Hkey & Hexc & ->)|(entry & Hkey & Hexc & ->)]];
    simpl.
  - rewrite (get_or_create_keep _ _ _ {| agg := _new_aggregate key ts |});
      [done | apply lookup_insert_eq | by apply Hfresh].
  - rewrite (get_or_create_keep _ _ _ {| agg := _new_aggregate key ts |});
      [done | apply lookup_insert_eq | by apply Hfresh].
  - by rewrite (get_or_create_keep _ _ _ entry).
Qed.

Lemma get_or_create_again_witness :
  get_or_create (get_or_create (init 120) web_key 5).2 web_key 5
  = get_or_create (init 120) web_key 5.
Proof.
  apply (get_or_create_again (init 120) web_key 5).
  vm_compute. discriminate.
Defined.

(** Without it the second call rolls again. *)
Example get_or_create_again_negative_idle :
  length (_finalized (get_or_create (init (-1)) web_key 5).2) = 0%nat ∧
  length (_finalized
            (get_or_create (get_or_create (init (-1)) web_key 5).2 web_key 5).2)
  = 1%nat.
Proof. vm_compute. done. Qed.

(** X4. [finalize_all] hands over every aggregate of the shard, the closed
    ones and one for each open key, and leaves the shard empty: a second
    call yields nothing. *)
Theorem finalize_all_drains shard hour_end hour_end' :
  let r := finalize_all shard hour_end in
  length r.1 = (length (_finalized shard) + size (_open shard))%nat ∧
  (∀ a, a ∈ r.1 ↔
        a ∈ _finalized shard ∨ ∃ k e, _open shard !! k = Some e ∧ agg e = a) ∧
  aggregates r.2 = [] ∧
  (finalize_all r.2 hour_end').1 = [].
Proof.
  unfold finalize_all, aggregates; simpl. split_and!.
  - by rewrite length_app, !length_fmap, length_map_to_list.
  - intros a. rewrite elem_of_app. apply or_iff_compat_l.
    rewrite list_elem_of_fmap. split.
    + intros (e & -> & [[k e'] [-> Hin]]%list_elem_of_fmap).
      apply elem_of_map_to_list in Hin. eauto.
    + intros (k & e & Hk & <-). exists e. split; [done|].
      apply list_elem_of_fmap. exists (k, e). split; [done|].
      by apply elem_of_map_to_list.
  - by rewrite map_to_list_empty.
  - by rewrite map_to_list_empty.
Qed.

(** *** What the aggregates of a shard add up to *)

Lemma agg_sum_app f l1 l2 : agg_sum f (l1 ++ l2) = agg_sum f l1 + agg_sum f l2.
Proof. induction l1 as [|a l1 IH]; simpl; [done|]. rewrite IH. lia. Qed.

Lemma agg_sum_cons f a l : agg_sum f (a :: l) = f a + agg_sum f l.
Proof. reflexivity. Qed.

#[local] Instance agg_sum_perm f : Proper ((≡ₚ) ==> (=)) (agg_sum f).
Proof.
  intros l1 l2 Hperm. induction Hperm; simpl; lia || congruence.
Qed.

(** Writing an entry changes the sum over the open aggregates by the
    difference between the new aggregate and the one it replaces. *)
Lemma open_sum_insert f (m : gmap GroupKey _Entry) k e :
  agg_sum f (agg <$> (map_to_list (<[k := e]> m)).*2) =
  agg_sum f (agg <$> (map_to_list m).*2)
  - (if m !! k is Some old then f (agg old) else 0) + f (agg e).
Proof.
  destruct (m !! k) as [old|] eqn:Hk.
  - rewrite <- (insert_delete_eq m).
    rewrite map_to_list_insert by apply lookup_delete_eq.
    rewrite <- (map_to_list_delete m k old) by done.
    rewrite !fmap_cons, !agg_sum_cons. simpl.
    generalize (f (agg e)) (f (agg old)). intros; lia.
  - rewrite map_to_list_insert by done.
    rewrite !fmap_cons, !agg_sum_cons. simpl.
    generalize (f (agg e)). intros; lia.
Qed.

Section Conservation.

(** A counter [f] that starts at 0 and that one packet raises by [g]. *)
Variable f : GroupAggregate → Z.
Variable g : PacketRecord → Direction → Z.
Hypothesis f_new : ∀ k ts, f (_new_aggregate k ts) = 0.
Hypothesis f_update : ∀ a pkt d, f (update_aggregate a pkt d) = f a + g pkt d.

Lemma route_packet_sum shard key pkt :
  agg_sum f (aggregates (route_packet shard key pkt)) =
  agg_sum f (aggregates shard) + g pkt (group_direction pkt key).
Proof.
  unfold route_packet, aggregates.
  destruct (get_or_create_cases shard key (pkt_ts pkt))
    as [[Hkey ->]|[(entry & Hkey & Hidle & ->)|(entry & Hkey & Hidle & ->)]];
    simpl; rewrite ?insert_insert_eq, !agg_sum_app, open_sum_insert, Hkey;
    simpl; rewrite f_update, ?f_new; lia.
Qed.

Lemma route_stream_sum stream : ∀ shard,
  agg_sum f (aggregates (route_stream shard stream)) =
  agg_sum f (aggregates shard)
  + foldr (λ kp n, g kp.2 (group_direction kp.2 kp.1) + n) 0 stream.
Proof.
  induction stream as [|[k p] stream IH]; intros shard; simpl; [lia|].
  change (route_stream shard ((k, p) :: stream))
    with (route_stream (route_packet shard k p) stream).
  rewrite IH, route_packet_sum. simpl. lia.
Qed.

End Conservation.

(** X5. No packet is lost or counted twice: for any stream of packets of
    any keys, in any order, the aggregates that [finalize_all] yields at the
    end count together as many packets as were routed, as many bytes as the
    packets had, and as many packets in each direction as went that way. *)
Theorem packets_conserved idle stream hour_end :
  let out := (finalize_all (route_stream (init idle) stream) hour_end).1 in
  agg_sum pkts_total out = Z.of_nat (length stream) ∧
  agg_sum bytes_total out = stream_bytes stream ∧
  agg_sum pkts_up out = stream_count up stream ∧
  agg_sum pkts_dn out = stream_count dn stream.
Proof.
  change (finalize_all (route_stream (init idle) stream) hour_end).1
    with (aggregates (route_stream (init idle) stream)).
  simpl. split_and!.
  - rewrite (route_stream_sum pkts_total (λ _ _, 1)); [| done |].
    + unfold aggregates; simpl. rewrite map_to_list_empty. simpl.
      induction stream as [|kp stream IH]; simpl; [done|]. lia.
    + intros a pkt d. unfold pkts_total. destruct d; simpl; lia.
  - rewrite (route_stream_sum bytes_total (λ pkt _, pkt_length pkt)); [| done |].
    + unfold aggregates; simpl. by rewrite map_to_list_empty.
    + intros a pkt d. unfold bytes_total. destruct d; simpl; lia.
  - rewrite (route_stream_sum pkts_up (λ _ d, if decide (d = up) then 1 else 0));
      [| done |].
    + unfold aggregates; simpl. by rewrite map_to_list_empty.
    + intros a pkt d. destruct d; simpl; lia.
  - rewrite (route_stream_sum pkts_dn (λ _ d, if decide (d = dn) then 1 else 0));
      [| done |].
    + unfold aggregates; simpl. by rewrite map_to_list_empty.
    + intros a pkt d. destruct d; simpl; lia.
Qed.

(** *** The keys of the aggregates *)

Lemma update_aggregate_key a pkt d : key (update_aggregate a pkt d) = key a.
Proof. reflexivity. Qed.

Lemma route_packet_keys_within shard key pkt ks :
  keys_within shard ks → keys_within (route_packet shard key pkt) ({[key]} ∪ ks).
Proof.
  intros (Hkeyed & Hfin & Hopen). unfold route_packet.
  destruct (get_or_create_cases shard key (pkt_ts pkt))
    as [[Hkey ->]|[(entry & Hkey & Hidle & ->)|(entry & Hkey & Hidle & ->)]];
    unfold keys_within, keyed; simpl; rewrite ?insert_insert_eq; split_and!.
  - intros k e [[<- <-]|[_ Hk]]%lookup_insert_Some; [done | by eapply Hkeyed].
  - intros a Ha. apply elem_of_union_r. by apply Hfin.
  - intros k e [[<- <-]|[_ Hk]]%lookup_insert_Some;
      [by apply elem_of_union_l, elem_of_singleton
      | apply elem_of_union_r; by eapply Hopen].
  - intros k e [[<- <-]|[_ Hk]]%lookup_insert_Some; [done | by eapply Hkeyed].
  - intros a [Ha|Ha%list_elem_of_singleton]%elem_of_app.
    + apply elem_of_union_r. by apply Hfin.
    + subst a. rewrite (Hkeyed _ _ Hkey).
      by apply elem_of_union_l, elem_of_singleton.
  - intros k e [[<- <-]|[_ Hk]]%lookup_insert_Some;
      [by apply elem_of_union_l, elem_of_singleton
      | apply elem_of_union_r; by eapply Hopen].
  - intros k e [[<- <-]|[_ Hk]]%lookup_insert_Some;
      [simpl; by eapply Hkeyed | by eapply Hkeyed].
  - intros a Ha. apply elem_of_union_r. by apply Hfin.
  - intros k e [[<- <-]|[_ Hk]]%lookup_insert_Some;
      [by apply elem_of_union_l, elem_of_singleton
      | apply elem_of_union_r; by eapply Hopen].
Qed.

Lemma route_stream_keys_within stream : ∀ shard ks,
  keys_within shard ks →
  keys_within (route_stream shard stream) (list_to_set stream.*1 ∪ ks).
Proof.
  induction stream as [|[k p] stream IH]; intros shard ks H.
  - simpl. by rewrite (left_id_L ∅ (∪)).
  - change (route_stream shard ((k, p) :: stream))
      with (route_stream (route_packet shard k p) stream).
    apply (route_packet_keys_within _ k p) in H. apply IH in H.
    simpl. by rewrite (comm_L (∪) {[k]}), <- (assoc_L (∪)).
Qed.

(** The keys carried by the open aggregates are the keys of the map. *)
Lemma open_aggregate_keys shard :
  keyed shard → key <$> open_aggregates shard = (map_to_list (_open shard)).*1.
Proof.
  intros Hkeyed. unfold open_aggregates.
  assert (Hall : ∀ kv, kv ∈ map_to_list (_open shard) → key (agg kv.2) = kv.1).
  { intros [k e] Hin%elem_of_map_to_list. by eapply Hkeyed. }
  induction (map_to_list (_open shard)) as [|kv l IH]; simpl; [done|].
  rewrite Hall by apply list_elem_of_here.
  f_equal. apply IH. intros kv' Hin. apply Hall. by apply list_elem_of_further.
Qed.

(** X6. At any point of a run there is at most one open aggregate for a
    key: the open aggregates carry pairwise distinct keys, each is stored
    under the key it carries, and every aggregate of the shard, open or
    closed, carries the key of some packet that was routed. *)
Theorem one_open_aggregate_per_key idle stream :
  let shard := route_stream (init idle) stream in
  NoDup (key <$> open_aggregates shard) ∧
  (∀ k e, _open shard !! k = Some e → key (agg e) = k) ∧
  (∀ a, a ∈ aggregates shard → key a ∈ stream.*1).
Proof.
  intros shard.
  destruct (route_stream_keys_within stream (init idle) ∅)
    as (Hkeyed & Hfin & Hopen).
  { unfold keys_within, keyed; simpl. split_and!.
    - intros k e Hk. by rewrite lookup_empty in Hk.
    - intros a Ha. by apply elem_of_nil in Ha.
    - intros k e Hk. by rewrite lookup_empty in Hk. }
  fold shard in Hkeyed, Hfin, Hopen. split_and!.
  - rewrite open_aggregate_keys by done. apply NoDup_fst_map_to_list.
  - exact Hkeyed.
  - intros a [Ha|Ha]%elem_of_app.
    + apply Hfin in Ha. rewrite (right_id_L ∅ (∪)) in Ha.
      by apply elem_of_list_to_set in Ha.
    + apply list_elem_of_fmap in Ha as (e & -> & He).
      apply list_elem_of_fmap in He as ([k e'] & -> & Hke).
      apply elem_of_map_to_list in Hke. simpl.
      rewrite (Hkeyed _ _ Hke). apply Hopen in Hke.
      rewrite (right_id_L ∅ (∪)) in Hke. by apply elem_of_list_to_set in Hke.
Qed.

End GroupingMore.

(** ** Features: what a sequence of updates adds up to *)

Module FeaturesMore.

Import Examples Measures.

Local Open Scope Z_scope.

Lemma update_all_cons a c calls :
  update_all a (c :: calls) = update_all (update_aggregate a c.1 c.2) calls.
Proof. reflexivity. Qed.

Lemma count_calls_cons test c calls :
  count_calls test (c :: calls) =
  (if test c.1 c.2 then 1 else 0) + count_calls test calls.
Proof.
  unfold count_calls. simpl. destruct (test c.1 c.2); simpl; lia.
Qed.

(** X7. The directional counters of an aggregate add up over a sequence of
    updates: each gains one packet per call in its direction and the length
    of that packet, and nothing from the calls of the other direction. *)
Theorem update_all_counters a calls :
  let a' := update_all a calls in
  pkts_up a' = pkts_up a + count_calls (λ _ d, bool_decide (d = up)) calls ∧
  pkts_dn a' = pkts_dn a + count_calls (λ _ d, bool_decide (d = dn)) calls ∧
  bytes_up a' = bytes_up a + bytes_of_calls up calls ∧
  bytes_dn a' = bytes_dn a + bytes_of_calls dn calls ∧
  pkts_up a' + pkts_dn a' = pkts_up a + pkts_dn a + Z.of_nat (length calls).
Proof.
  revert a. induction calls as [|[pkt d] calls IH]; intros a.
  - unfold count_calls; simpl. lia.
  - change (update_all a ((pkt, d) :: calls))
      with (update_all (update_aggregate a pkt d) calls).
    specialize (IH (update_aggregate a pkt d)).
    simpl in IH. destruct IH as (H1 & H2 & H3 & H4 & H5).
    cbv zeta. rewrite H1, H2, H3, H4, !count_calls_cons, length_cons.
    destruct d; simpl; split_and!; lia.
Qed.

Lemma count_flags_bits c flags :
  syn (count_flags c flags) = syn c + (if Z.testbit flags 1 then 1 else 0) ∧
  ack (count_flags c flags) = ack c + (if Z.testbit flags 4 then 1 else 0) ∧
  rst (count_flags c flags) = rst c + (if Z.testbit flags 2 then 1 else 0) ∧
  fin (count_flags c flags) = fin c + (if Z.testbit flags 0 then 1 else 0).
Proof.
  unfold count_flags, bump; cbn -[Z.testbit has_flag].
  change _TCP_SYN with (2 ^ 1). change _TCP_ACK with (2 ^ 4).
  change _TCP_RST with (2 ^ 2). change _TCP_FIN with (2 ^ 0).
  rewrite !ScanFacts.has_flag_testbit by lia.
  repeat destruct (Z.testbit flags _); split_and!; lia.
Qed.

Lemma update_all_flags_aux a calls :
  let a' := update_all a calls in
  syn (tcp_flags a') = syn (tcp_flags a) + count_calls (λ p _, tcp_bit 1 p) calls ∧
  ack (tcp_flags a') = ack (tcp_flags a) + count_calls (λ p _, tcp_bit 4 p) calls ∧
  rst (tcp_flags a') = rst (tcp_flags a) + count_calls (λ p _, tcp_bit 2 p) calls ∧
  fin (tcp_flags a') = fin (tcp_flags a) + count_calls (λ p _, tcp_bit 0 p) calls.
Proof.
  revert a. induction calls as [|[pkt d] calls IH]; intros a.
  - unfold count_calls; simpl. lia.
  - change (update_all a ((pkt, d) :: calls))
      with (update_all (update_aggregate a pkt d) calls).
    specialize (IH (update_aggregate a pkt d)).
    simpl in IH. destruct IH as (H1 & H2 & H3 & H4).
    cbv zeta. rewrite H1, H2, H3, H4, !count_calls_cons.
    unfold tcp_bit; cbn -[Z.testbit count_flags].
    destruct (pkt_tcp_flags pkt) as [flags|]; [|split_and!; lia].
    destruct (count_flags_bits (tcp_flags a) flags) as (-> & -> & -> & ->).
    split_and!; lia.
Qed.

(** X8. The TCP flag histogram of an aggregate counts, for each of SYN,
    ACK, RST and FIN, the TCP packets that have that bit set: the four
    counters are independent, a packet with several flags is counted by
    each, and a packet that is not TCP is counted by none. *)
Theorem update_all_flag_histogram a calls :
  let a' := update_all a calls in
  syn (tcp_flags a') = syn (tcp_flags a) + count_calls (λ p _, tcp_bit 1 p) calls ∧
  ack (tcp_flags a') = ack (tcp_flags a) + count_calls (λ p _, tcp_bit 4 p) calls ∧
  rst (tcp_flags a') = rst (tcp_flags a) + count_calls (λ p _, tcp_bit 2 p) calls ∧
  fin (tcp_flags a') = fin (tcp_flags a) + count_calls (λ p _, tcp_bit 0 p) calls.
Proof. apply update_all_flags_aux. Qed.

(** A SYN+ACK packet, a UDP packet and a FIN packet. *)
Example flag_histogram_run :
  tcp_flags
    (update_all (_new_aggregate web_key 0)
       [(reply_at 1, dn); (PacketReader._other_transport 2 "a" "b" 60, up);
        (request_at 3 Byte.x01, up)])
  = {| syn := 1; ack := 2; rst := 0; fin := 0 |}.
Proof. vm_compute. reflexivity. Qed.

Local Open Scope Q_scope.

Lemma update_aggregate_span a pkt d :
  let a' := update_aggregate a pkt d in
  (first_ts a' <= first_ts a ∧ first_ts a' <= pkt_ts pkt ∧
   (first_ts a' = first_ts a ∨ first_ts a' = pkt_ts pkt)) ∧
  (last_ts a <= last_ts a' ∧ pkt_ts pkt <= last_ts a' ∧
   (last_ts a' = last_ts a ∨ last_ts a' = pkt_ts pkt)).
Proof.
  simpl.
  destruct (Qlt_le_dec (pkt_ts pkt) (first_ts a)),
           (Qlt_le_dec (last_ts a) (pkt_ts pkt));
    split_and!; try lra; auto.
Qed.

(** X9. After a sequence of updates the span of an aggregate is the
    smallest that holds the span it had and the timestamp of every packet:
    [first_ts] is at most each of them and is one of them, and likewise
    [last_ts] from above, whatever the order of the packets. *)
Theorem update_all_span a calls :
  let a' := update_all a calls in
  let tss := (λ c : PacketRecord * Direction, pkt_ts c.1) <$> calls in
  (first_ts a' <= first_ts a ∧ Forall (λ t, first_ts a' <= t) tss ∧
   first_ts a' ∈ first_ts a :: tss) ∧
  (last_ts a <= last_ts a' ∧ Forall (λ t, t <= last_ts a') tss ∧
   last_ts a' ∈ last_ts a :: tss).
Proof.
  revert a. induction calls as [|[pkt d] calls IH]; intros a.
  - simpl. split_and!; try lra; try done; apply list_elem_of_here.
  - change (update_all a ((pkt, d) :: calls))
      with (update_all (update_aggregate a pkt d) calls).
    specialize (IH (update_aggregate a pkt d)).
    destruct (update_aggregate_span a pkt d)
      as ((Hf1 & Hf2 & Hf3) & (Hl1 & Hl2 & Hl3)).
    cbv zeta in *. simpl fst in *. simpl snd in *.
    destruct IH as ((If1 & If2 & If3) & (Il1 & Il2 & Il3)).
    rewrite fmap_cons. simpl fst. split_and!.
    + lra.
    + constructor; [lra | done].
    + apply elem_of_cons in If3 as [If3|If3].
      * rewrite If3. destruct Hf3 as [->| ->];
          [apply list_elem_of_here | apply list_elem_of_further, list_elem_of_here].
      * by do 2 apply list_elem_of_further.
    + lra.
    + constructor; [lra | done].
    + apply elem_of_cons in Il3 as [Il3|Il3].
      * rewrite Il3. destruct Hl3 as [->| ->];
          [apply list_elem_of_here | apply list_elem_of_further, list_elem_of_here].
      * by do 2 apply list_elem_of_further.
Qed.

End FeaturesMore.

(** ** Finalization and quantization *)

Module QuantizeFacts.

Import Examples Measures Finalization Quantize.

Local Open Scope Z_scope.

(** [_linear_bin] never returns a negative number, leaves a count that is
    not negative as it is, maps every negative number to 0, keeps the order
    of its arguments and changes nothing when applied twice. *)
Lemma linear_bin_clamps x y :
  0 <= _linear_bin x ∧
  (0 <= x → _linear_bin x = x) ∧
  (x <= 0 → _linear_bin x = 0) ∧
  (x <= y → _linear_bin x <= _linear_bin y) ∧
  _linear_bin (_linear_bin x) = _linear_bin x.
Proof. unfold _linear_bin. split_and!; lia. Qed.

Section Tokens.

Variable floor_log : Z → Q → Z.
Variable floor_log_float : Q → Q → Z.

(** [_log_bin] does not take the logarithm of a count that is not
    positive: it returns 0, whatever the logarithm. *)
Lemma log_bin_not_positive x base :
  _log_bin floor_log 0 base = 0 ∧ (x <= 0 → _log_bin floor_log x base = 0).
Proof.
  unfold _log_bin. split; [done|]. intros Hx.
  by destruct (Z.leb_spec x 0); [|lia].
Qed.

Lemma quantize_tokens_dom counts duration_s flags b1 b2 :
  dom (quantize_tokens floor_log floor_log_float counts duration_s flags b1 b2)
  = token_names.
Proof.
  unfold quantize_tokens. cbn [list_to_map foldr uncurry fst snd].
  rewrite !dom_insert_L, dom_empty_L. unfold token_names.
  by rewrite (right_id_L ∅ (∪)).
Qed.

(** X10. [quantize_tokens] yields the same nine tokens whatever keys the
    dicts it is given hold: a missing counter or flag counts as 0, and with
    no counters, no flags and a duration of 0 every token is 0, whatever the
    logarithm does. *)
Theorem quantize_tokens_total counts duration_s flags b1 b2 :
  let toks :=
    quantize_tokens floor_log floor_log_float counts duration_s flags b1 b2 in
  dom toks = token_names ∧
  quantize_tokens floor_log floor_log_float ∅ 0 ∅ b1 b2
  = gset_to_gmap 0 token_names ∧
  (∀ name, name ∈ ["syn"; "ack"; "rst"; "fin"]%string →
           flags !! name = None → toks !! (name +:+ "_bin") = Some 0) ∧
  (∀ name, name ∈ ["pkts_up"; "pkts_dn"; "bytes_up"; "bytes_dn"]%string →
           counts !! name = None → toks !! (name +:+ "_bin") = Some 0).
Proof.
  intros toks. subst toks. split_and!.
  - apply quantize_tokens_dom.
  - apply map_eq. intros name.
    unfold quantize_tokens, get0, _log_bin, _log_bin_float, clamp_duration.
    rewrite !lookup_empty. simpl. vm_compute gset_to_gmap.
    reflexivity.
  - intros name Hname Hnone.
    unfold quantize_tokens, get0.
    rewrite !elem_of_cons, elem_of_nil in Hname.
    destruct Hname as [->|[->|[->|[->|[]]]]]; rewrite Hnone; reflexivity.
  - intros name Hname Hnone.
    unfold quantize_tokens, get0, _log_bin.
    rewrite !elem_of_cons, elem_of_nil in Hname.
    destruct Hname as [->|[->|[->|[->|[]]]]]; rewrite Hnone; reflexivity.
Qed.

(** X11. A logarithm base at or below 1 is replaced by 2: with such bases
    [quantize_tokens] gives the tokens it gives with base 2. *)
Theorem quantize_tokens_base_fallback counts duration_s flags b1 b2 :
  (b1 <= 1)%Q → (b2 <= 1)%Q →
  quantize_tokens floor_log floor_log_float counts duration_s flags b1 b2
  = quantize_tokens floor_log floor_log_float counts duration_s flags 2 2.
Proof.
  intros H1 H2. unfold quantize_tokens, _log_bin, _log_bin_float, effective_base.
  apply Qle_bool_iff in H1, H2. rewrite H1, H2. reflexivity.
Qed.

(** X12. The flag tokens of an aggregate that has been built from packets
    count packets: after finalization and quantization, [syn_bin],
    [ack_bin], [rst_bin] and [fin_bin] are the numbers of TCP packets with
    that flag set, and the tokens are the nine of [token_names]. *)
Theorem flag_tokens_count_packets key ts calls b1 b2 :
  let toks :=
    tokens_of_aggregate floor_log floor_log_float
      (update_all (_new_aggregate key ts) calls) b1 b2 in
  dom toks = token_names ∧
  toks !! "syn_bin"%string = Some (count_calls (λ p _, tcp_bit 1 p) calls) ∧
  toks !! "ack_bin"%string = Some (count_calls (λ p _, tcp_bit 4 p) calls) ∧
  toks !! "rst_bin"%string = Some (count_calls (λ p _, tcp_bit 2 p) calls) ∧
  toks !! "fin_bin"%string = Some (count_calls (λ p _, tcp_bit 0 p) calls).
Proof.
  intros toks.
  destruct (FeaturesMore.update_all_flags_aux (_new_aggregate key ts) calls)
    as (Hsyn & Hack & Hrst & Hfin).
  assert (Hpos : ∀ test, 0 <= count_calls test calls)
    by (intros; unfold count_calls; lia).
  subst toks. unfold tokens_of_aggregate, finalize_aggregate.
  split; [apply quantize_tokens_dom|].
  unfold quantize_tokens, get0.
  set (a := update_all (_new_aggregate key ts) calls) in *.
  simpl in Hsyn, Hack, Hrst, Hfin.
  split_and!.
  - transitivity (Some (_linear_bin (syn (tcp_flags a)))); [reflexivity|].
    rewrite Hsyn. unfold _linear_bin. f_equal.
    specialize (Hpos (λ p _, tcp_bit 1 p)). lia.
  - transitivity (Some (_linear_bin (ack (tcp_flags a)))); [reflexivity|].
    rewrite Hack. unfold _linear_bin. f_equal.
    specialize (Hpos (λ p _, tcp_bit 4 p)). lia.
  - transitivity (Some (_linear_bin (rst (tcp_flags a)))); [reflexivity|].
    rewrite Hrst. unfold _linear_bin. f_equal.
    specialize (Hpos (λ p _, tcp_bit 2 p)). lia.
  - transitivity (Some (_linear_bin (fin (tcp_flags a)))); [reflexivity|].
    rewrite Hfin. unfold _linear_bin. f_equal.
    specialize (Hpos (λ p _, tcp_bit 0 p)). lia.
Qed.

End Tokens.

Lemma quantize_tokens_base_fallback_witness :
  quantize_tokens (λ _ _, 7) (λ _ _, 3) {["pkts_up"%string := 9]} 4 ∅ (1 # 2) 1
  = quantize_tokens (λ _ _, 7) (λ _ _, 3) {["pkts_up"%string := 9]} 4 ∅ 2 2.
Proof.
  apply quantize_tokens_base_fallback.
  - vm_compute. discriminate.
  - vm_compute. discriminate.
Defined.

Local Open Scope Q_scope.

(** X13. The duration that [finalize_aggregate] reports is the difference
    [last_ts - first_ts] as floats give it, the exact difference rounded,
    and 0 in its place when that is negative: it is never negative and it
    is 0 when [last_ts] does not exceed [first_ts]. For every aggregate of
    a run the clamp changes nothing: the duration is the rounded length of
    the span. The counts and flags reported are the counters of the
    aggregate. *)
Theorem finalize_aggregate_reports a idle stream :
  let '(duration_s, counts, flags) := finalize_aggregate a in
  0 <= duration_s ∧
  (last_ts a <= first_ts a → duration_s = 0) ∧
  (first_ts a < last_ts a → duration_s == round (last_ts a - first_ts a)) ∧
  (a ∈ aggregates (route_stream (init idle) stream) →
   duration_s == round (last_ts a - first_ts a)) ∧
  counts = {[ "pkts_up"%string := pkts_up a; "pkts_dn"%string := pkts_dn a;
              "bytes_up"%string := bytes_up a; "bytes_dn"%string := bytes_dn a ]} ∧
  flags = {[ "syn"%string := syn (tcp_flags a); "ack"%string := ack (tcp_flags a);
             "rst"%string := rst (tcp_flags a); "fin"%string := fin (tcp_flags a) ]}.
Proof.
  unfold finalize_aggregate, duration_of, fsub.
  assert (Hspan : first_ts a <= last_ts a →
    (if Qlt_le_dec 0 (round (last_ts a - first_ts a))
     then round (last_ts a - first_ts a) else 0)
    == round (last_ts a - first_ts a)).
  { intros H. apply (Binary64Facts.fsub_nonneg (last_ts a)) in H.
    unfold fsub in H.
    destruct (Qlt_le_dec 0 (round (last_ts a - first_ts a))); lra. }
  split_and!.
  - destruct (Qlt_le_dec 0 (round (last_ts a - first_ts a))); lra.
  - intros H. apply (Binary64Facts.fsub_nonpos (last_ts a)) in H.
    unfold fsub in H.
    destruct (Qlt_le_dec 0 (round (last_ts a - first_ts a))); [lra | done].
  - intros H. apply Hspan. lra.
  - intros Hin%GroupingFacts.run_aggregates_ordered. by apply Hspan.
  - reflexivity.
  - reflexivity.
Qed.

(** A span from the double nearest to 0.7 to the one nearest to 120.7:
    the duration reported is 120, which is less than the exact length. *)
Example duration_is_rounded :
  let a :=
    update_aggregate
      (_new_aggregate Examples.web_key (binary64 6305039478318694 (- 53)))
      (Examples.packet_at (binary64 8493507422244045 (- 46))) up in
  (finalize_aggregate a).1.1 == 120 ∧ 120 < last_ts a - first_ts a.
Proof. split; vm_compute; reflexivity. Qed.

End QuantizeFacts.

(** ** Windowing *)

Module WindowingFacts.

Import Windowing.

Lemma in_window_spec ts a b :
  in_window ts a b = true ↔ (inject_Z a <= ts)%Q ∧ (ts < inject_Z b)%Q.
Proof.
  unfold in_window. rewrite andb_true_iff, Qle_bool_iff.
  destruct (Qlt_le_dec ts (inject_Z b)); split; intros [? ?]; split; try done.
  lra.
Qed.

(** X14. Windows are half-open, so consecutive windows share no timestamp
    and leave none out: for bounds [a <= b <= c] a timestamp is in [a, c)
    exactly when it is in [a, b) or in [b, c), and it is never in both. *)
Theorem in_window_tiles ts a b c :
  a <= b → b <= c →
  in_window ts a c = in_window ts a b || in_window ts b c ∧
  in_window ts a b && in_window ts b c = false.
Proof.
  intros Hab Hbc. rewrite Zle_Qle in Hab, Hbc. split.
  - apply eq_true_iff_eq.
    rewrite orb_true_iff, !in_window_spec. split.
    + intros [H1 H2]. destruct (Qlt_le_dec ts (inject_Z b)); [left | right];
        split; done.
    + intros [[H1 H2]|[H1 H2]]; split; lra.
  - apply not_true_is_false. rewrite andb_true_iff, !in_window_spec.
    intros [[_ H1] [H2 _]]. lra.
Qed.

Lemma in_window_tiles_witness :
  in_window (7199 # 2) 0 7200
  = in_window (7199 # 2) 0 3600 || in_window (7199 # 2) 3600 7200 ∧
  in_window (7199 # 2) 0 3600 && in_window (7199 # 2) 3600 7200 = false.
Proof. apply (in_window_tiles (7199 # 2) 0 3600 7200); lia. Defined.

(** The boundary belongs to the later window. *)
Example in_window_boundary :
  in_window 3600 0 3600 = false ∧ in_window 3600 3600 7200 = true.
Proof. vm_compute. done. Qed.

End WindowingFacts.

(** ** Scan gate: what is remembered of a source, and the split *)

Module ScanMore.

Import Scan Examples ScanFacts ScanMeasures.

Local Open Scope Z_scope.

Lemma sample_cap_observe_all obs : ∀ self,
  _sample_cap (observe_all self obs) = _sample_cap self.
Proof.
  induction obs as [|o obs IH]; intros self; [done|].
  by rewrite observe_all_cons, IH.
Qed.

Lemma stats_of_observe_packet self pkt key src :
  stats_of (observe_packet self pkt key) src =
  if decide (src_ip key = src)
  then observe_stats (_sample_cap self) (stats_of self src) pkt key
  else stats_of self src.
Proof.
  unfold stats_of at 1. rewrite lookup_observe_packet.
  by destruct (decide (src_ip key = src)).
Qed.

Lemma targets_of_cons src o obs :
  targets_of src (o :: obs) =
  if decide (src_ip o.2 = src) then (dst_ip o.2, dst_port o.2) :: targets_of src obs
  else targets_of src obs.
Proof.
  unfold targets_of. rewrite observations_of_cons.
  by destruct (decide (src_ip o.2 = src)).
Qed.

Lemma count_obs_cons test src o obs :
  count_obs test src (o :: obs) =
  (if decide (src_ip o.2 = src) then if test o.1 then 1 else 0 else 0)
  + count_obs test src obs.
Proof.
  unfold count_obs. rewrite observations_of_cons.
  destruct (decide (src_ip o.2 = src)); simpl; [|lia].
  destruct (test o.1); simpl; lia.
Qed.

(** The sample of a source takes targets while it is below the cap. *)
Lemma sample_targets_observe_all src obs : ∀ self,
  sample_targets (stats_of (observe_all self obs) src) =
  sample_targets (stats_of self src)
  ++ take (Z.to_nat (_sample_cap self) - length (sample_targets (stats_of self src)))
       (targets_of src obs).
Proof.
  induction obs as [|o obs IH]; intros self.
  - change (targets_of src []) with (@nil (string * Z)).
    by rewrite take_nil, app_nil_r.
  - rewrite observe_all_cons, IH, stats_of_observe_packet, targets_of_cons.
    destruct (decide (src_ip o.2 = src)); [|done]. simpl.
    set (l := sample_targets (stats_of self src)).
    destruct (Z.ltb_spec (Z.of_nat (length l)) (_sample_cap self)) as [Hlt|Hge].
    + rewrite length_app, <- app_assoc. simpl. f_equal.
      replace (Z.to_nat (_sample_cap self) - length l)%nat
        with (S (Z.to_nat (_sample_cap self) - (length l + 1)))%nat by lia.
      done.
    + replace (Z.to_nat (_sample_cap self) - length l)%nat with 0%nat by lia.
      done.
Qed.

Lemma ports_observe_all src obs : ∀ self,
  unique_ports (stats_of (observe_all self obs) src) =
  list_to_set (targets_of src obs).*2 ∪ unique_ports (stats_of self src).
Proof.
  induction obs as [|o obs IH]; intros self.
  - simpl. by rewrite (left_id_L ∅ (∪)).
  - rewrite observe_all_cons, IH, stats_of_observe_packet, targets_of_cons.
    destruct (decide (src_ip o.2 = src)); simpl; [|done].
    by rewrite (assoc_L (∪)), (comm_L (∪) {[dst_port o.2]}).
Qed.

Lemma counters_observe_all src obs : ∀ self,
  tcp_pkts (stats_of (observe_all self obs) src) =
    tcp_pkts (stats_of self src) + count_obs is_tcp src obs ∧
  syn_only_pkts (stats_of (observe_all self obs) src) =
    syn_only_pkts (stats_of self src) + count_obs is_syn_only src obs.
Proof.
  induction obs as [|o obs IH]; intros self.
  - unfold count_obs; simpl. lia.
  - rewrite observe_all_cons. destruct (IH (observe_packet self o.1 o.2)) as [-> ->].
    rewrite stats_of_observe_packet, !count_obs_cons.
    destruct (decide (src_ip o.2 = src)); [|lia].
    unfold is_tcp, is_syn_only. cbn -[Z.testbit syn_only].
    destruct (pkt_tcp_flags o.1) as [flags|]; [|simpl; lia].
    rewrite syn_only_testbit. unfold bump.
    destruct (Z.testbit flags 1 && negb (Z.testbit flags 4)); simpl; lia.
Qed.

Lemma stats_of_init thr cont n rs cap src :
  stats_of (init thr cont n rs cap) src = fresh_stats.
Proof. unfold stats_of; simpl. by rewrite lookup_empty. Qed.

(** X15. What the gate keeps of a source: its sample of targets is the
    first [sample_targets_cap] pairs (destination, port) observed for it, in
    order, and none when the cap is not positive; its port set is the set
    of ports observed for it. *)
Theorem gate_sample_and_ports thr cont n rs cap obs src :
  let g := observe_all (init thr cont n rs cap) obs in
  sample_targets (stats_of g src) = take (Z.to_nat cap) (targets_of src obs) ∧
  (length (sample_targets (stats_of g src)) ≤ Z.to_nat cap)%nat ∧
  unique_ports (stats_of g src) = list_to_set (targets_of src obs).*2.
Proof.
  intros g. subst g.
  rewrite sample_targets_observe_all, ports_observe_all, !stats_of_init.
  simpl. rewrite Nat.sub_0_r, (right_id_L ∅ (∪)).
  split_and!; [done | | done].
  rewrite length_take. apply Nat.le_min_l.
Qed.

Lemma filter_length_mono {A} (f g : A → bool) l :
  (∀ x, f x = true → g x = true) →
  (length (List.filter f l) ≤ length (List.filter g l))%nat.
Proof.
  intros Himp. induction l as [|x l IH]; simpl; [done|].
  destruct (f x) eqn:Hf.
  - rewrite (Himp x Hf). simpl. lia.
  - destruct (g x); simpl; lia.
Qed.

(** X16. The counters of a source: its TCP packet count is the number of
    TCP packets observed for it and its SYN-only count the number of those
    with SYN set and ACK not set; so the SYN-only count never exceeds the
    TCP count and the ratio used by the split lies between 0 and 1. *)
Theorem gate_syn_only_ratio thr cont n rs cap obs src :
  let s := stats_of (observe_all (init thr cont n rs cap) obs) src in
  tcp_pkts s = count_obs is_tcp src obs ∧
  syn_only_pkts s = count_obs is_syn_only src obs ∧
  0 <= syn_only_pkts s <= tcp_pkts s ∧
  (0 <= ratio_of s <= 1)%Q.
Proof.
  intros s.
  destruct (counters_observe_all src obs (init thr cont n rs cap)) as [Htcp Hsyn].
  rewrite !stats_of_init in Htcp, Hsyn. simpl in Htcp, Hsyn.
  fold s in Htcp, Hsyn.
  assert (Hle : 0 <= count_obs is_syn_only src obs <= count_obs is_tcp src obs).
  { unfold count_obs. split; [lia|]. apply inj_le, filter_length_mono.
    intros o. unfold is_syn_only, is_tcp.
    by destruct (pkt_tcp_flags o.1). }
  split_and!; [done | done | lia | lia | |]; unfold ratio_of;
    destruct (Z.ltb_spec 0 (tcp_pkts s)) as [Hpos|Hzero]; try done.
  - apply Qle_shift_div_l; [by rewrite <- (Zlt_Qlt 0)|].
    rewrite Qmult_0_l, <- (Zle_Qle 0). lia.
  - apply Qle_shift_div_r; [by rewrite <- (Zlt_Qlt 0)|].
    rewrite Qmult_1_l, <- Zle_Qle. lia.
Qed.

(** X17. A scan candidate stays one: observing more packets never removes
    a source from [candidates]. *)
Theorem candidates_grow self obs src :
  src ∈ candidates self → src ∈ candidates (observe_all self obs).
Proof.
  rewrite !candidates_spec, threshold_observe_all. unfold exceeds.
  intros (s & Hs & Hlt).
  assert (is_Some (_by_src (observe_all self obs) !! src)) as [s' Hs'].
  { apply tracked_observe_all. left. by eexists. }
  exists s'. split; [done|].
  pose proof (contacted_observe_all src obs self) as Hdsts.
  unfold stats_of in Hdsts. rewrite Hs, Hs' in Hdsts. simpl in Hdsts.
  assert (size (unique_dsts s) ≤ size (unique_dsts s'))%nat.
  { apply subseteq_size. rewrite Hdsts. apply union_subseteq_r. }
  lia.
Qed.

Lemma candidates_grow_witness :
  "10.0.0.8"%string ∈
    candidates (observe_all two_scanners
                  [(packet_at 9, key_to "10.0.0.7" "10.1.0.1")]).
Proof.
  apply (candidates_grow two_scanners).
  apply candidates_spec. eexists. split; [vm_compute; reflexivity|].
  vm_compute. reflexivity.
Defined.

(** *** The split *)

Lemma candidates_NoDup self : NoDup (candidates self).
Proof.
  unfold candidates.
  pose proof (NoDup_fst_map_to_list (_by_src self)) as Hnd.
  induction (map_to_list (_by_src self)) as [|kv l IH]; [constructor|].
  rewrite fmap_cons in Hnd. apply NoDup_cons in Hnd as [Hnotin Hnd].
  rewrite filter_cons. case_decide; [|by apply IH].
  rewrite fmap_cons. apply NoDup_cons. split; [|by apply IH].
  intros Hin. apply Hnotin.
  apply list_elem_of_fmap in Hin as (kv' & -> & Hin').
  apply list_elem_of_filter in Hin' as [_ Hin'].
  apply list_elem_of_fmap. by exists kv'.
Qed.

Ltac fold_fmap :=
  repeat match goal with
         | |- context [list_fmap ?A ?B ?f ?l] =>
             change (list_fmap A B f l) with (f <$> l)
         end.

(** Sorting labelled sources by their label splits them in two. *)
Lemma labelled_split (l : list (string * Z)) :
  let inliers := (List.filter (λ sl, sl.2 =? 1) l).*1 in
  let rest := (List.filter (λ sl, negb (sl.2 =? 1)) l).*1 in
  (list_to_set inliers ∪ list_to_set rest : gset string) = list_to_set l.*1 ∧
  (∀ x, x ∈ inliers → x ∈ l.*1) ∧
  (NoDup l.*1 →
   NoDup inliers ∧ (list_to_set inliers ∩ list_to_set rest : gset string) = ∅).
Proof.
  induction l as [|[src lbl] l (IHu & IHin & IHd)]; simpl in *.
  - split_and!; [by rewrite (left_id_L ∅ (∪)) | done |].
    intros _. split; [constructor | by rewrite (left_absorb_L ∅ (∩))].
  - destruct (lbl =? 1) eqn:Hlbl; simpl; fold_fmap.
    + split_and!.
      * by rewrite <- IHu, (assoc_L (∪)).
      * intros x [->|Hx]%elem_of_cons; [apply list_elem_of_here|].
        by apply list_elem_of_further, IHin.
      * intros [Hnotin Hnd]%NoDup_cons. destruct (IHd Hnd) as [Hnd' Hdisj].
        split.
        -- apply NoDup_cons. split; [|done]. intros Hin. by apply Hnotin, IHin.
        -- apply set_eq. intros x. rewrite elem_of_intersection, elem_of_union,
             elem_of_singleton, elem_of_empty. split; [|done].
           intros [[->|Hx] Hr].
           ++ apply Hnotin. apply (elem_of_list_to_set (C:=gset string)).
              rewrite <- IHu. by apply elem_of_union_r.
           ++ assert (x ∈ (∅ : gset string)) as Habs;
                [rewrite <- Hdisj; by apply elem_of_intersection|].
              by apply elem_of_empty in Habs.
    + split_and!.
      * rewrite <- IHu, !(assoc_L (∪)). f_equal. apply (comm_L (∪)).
      * intros x Hx. by apply list_elem_of_further, IHin.
      * intros [Hnotin Hnd]%NoDup_cons. destruct (IHd Hnd) as [Hnd' Hdisj].
        split; [done|].
        apply set_eq. intros x. rewrite elem_of_intersection, elem_of_union,
          elem_of_singleton, elem_of_empty. split; [|done].
        intros [Hi [->|Hr]].
        -- apply Hnotin, IHin. by apply elem_of_list_to_set in Hi.
        -- assert (x ∈ (∅ : gset string)) as Habs;
             [rewrite <- Hdisj; by apply elem_of_intersection|].
           by apply elem_of_empty in Habs.
Qed.

(** X18. With a classifier that answers one label for each row,
    [split_repetitive_vs_outliers] sorts the candidates: every candidate is
    either a repetitive source or an outlier and none is both, there is
    exactly one ScanSummary for each repetitive source, and each summary
    reports more distinct destinations than the threshold. *)
Theorem split_sorts_candidates fit_predict self :
  one_label_per_row fit_predict →
  let r := split_repetitive_vs_outliers fit_predict self in
  source_ips r.1 ∪ r.2 = list_to_set (candidates self) ∧
  source_ips r.1 ∩ r.2 = ∅ ∧
  list_to_set (scan_src_ip <$> _summaries r.1) = source_ips r.1 ∧
  length (_summaries r.1) = size (source_ips r.1) ∧
  Forall (λ s, _threshold self < Z.of_nat (scan_unique_dsts s)) (_summaries r.1).
Proof.
  intros Hrows. unfold split_repetitive_vs_outliers.
  case_bool_decide as Hnil.
  { rewrite Hnil. simpl.
    split_and!; [by rewrite (left_id_L ∅ (∪)) | by rewrite (left_absorb_L ∅ (∩))
                 | done | done | done]. }
  rewrite length_fmap.
  destruct (length (candidates self) <? 3)%nat eqn:Hfew.
  { simpl.
    split_and!; [by rewrite (left_id_L ∅ (∪)) | by rewrite (left_absorb_L ∅ (∩))
                 | done | done | done]. }
  set (X := (λ src, [ratio_of (_by_src self !!! src)]) <$> candidates self).
  set (labels := fit_predict _ _ _ X).
  set (labelled := zip (candidates self) labels).
  assert (Hfst : labelled.*1 = candidates self).
  { apply fst_zip. subst labels. rewrite Hrows. subst X. by rewrite length_fmap. }
  destruct (labelled_split labelled) as (Hunion & Hin & Hdisj).
  rewrite Hfst in Hunion, Hin, Hdisj.
  destruct (Hdisj (candidates_NoDup self)) as [Hnd Hempty].
  cbv zeta. simpl. split_and!.
  - exact Hunion.
  - exact Hempty.
  - by rewrite <- list_fmap_compose, list_fmap_id.
  - by rewrite length_fmap, size_list_to_set.
  - apply Forall_fmap, Forall_forall. intros src Hsrc%Hin.
    apply candidates_spec in Hsrc as (s & Hs & Hex). simpl.
    by rewrite lookup_total_alt, Hs.
Qed.

Lemma split_sorts_candidates_witness :
  let r := split_repetitive_vs_outliers MoreExamples.first_is_outlier
             MoreExamples.three_scanners in
  source_ips r.1 ∪ r.2 = list_to_set (candidates MoreExamples.three_scanners) ∧
  source_ips r.1 ∩ r.2 = ∅ ∧
  list_to_set (scan_src_ip <$> _summaries r.1) = source_ips r.1 ∧
  length (_summaries r.1) = size (source_ips r.1) ∧
  Forall (λ s, _threshold MoreExamples.three_scanners < Z.of_nat (scan_unique_dsts s))
    (_summaries r.1).
Proof.
  apply (split_sorts_candidates MoreExamples.first_is_outlier
           MoreExamples.three_scanners).
  intros n c rs [|row X]; simpl; [done|]. by rewrite length_fmap.
Defined.

(** The split of three candidates, evaluated: one outlier, two summaries. *)
Example split_run :
  let r := split_repetitive_vs_outliers MoreExamples.first_is_outlier
             MoreExamples.three_scanners in
  length (_summaries r.1) = 2%nat ∧ size r.2 = 1%nat ∧
  size (source_ips r.1) = 2%nat ∧
  Forall (λ s, scan_unique_dsts s = 1%nat ∧ scan_unique_ports s = 1%nat)
    (_summaries r.1).
Proof. vm_compute. split_and!; try done. repeat constructor. Qed.

End ScanMore.

(** ** Segment validation: the outcomes *)

Module ValidatorMore.

Import Validator Examples ValidatorFacts.

Local Open Scope Z_scope.

(** A preview of [content] matches the magic of at most one compressor. *)
Lemma magic_matches_unique c1 c2 content :
  magic_matches c1 content → magic_matches c2 content → c1 = c2.
Proof.
  assert (Htake : take 2 (take 4 content) = take 2 content)
    by (rewrite take_take; f_equal).
  unfold magic_matches.
  intros [[-> H1]|[[-> H1]|[-> H1]]] [[-> H2]|[[-> H2]|[-> H2]]];
    try done; exfalso;
    rewrite ?elem_of_cons, ?elem_of_nil in *;
    try (rewrite <- Htake in *);
    repeat match goal with
           | H : _ ∨ _ |- _ => destruct H
           | H : take 4 content = _ |- _ => rewrite H in *
           end; done.
Qed.


(** X20. A file passes validation under at most one compressor label, and
    under no label other than "none", "gzip" and "zstd": two handles of the
    same path that both validate declare the same compressor. *)
Theorem validate_segment_one_label fs seg1 seg2 :
  path seg1 = path seg2 →
  validate_segment fs seg1 = Return true →
  validate_segment fs seg2 = Return true →
  compressor seg1 = compressor seg2 ∧
  compressor seg1 ∈ ["none"; "gzip"; "zstd"]%string.
Proof.
  intros Hpath H1 H2.
  destruct (has_nul (path seg1)) eqn:Hnul.
  { by rewrite (validate_segment_nul fs seg1 Hnul) in H1. }
  destruct (fs (path seg1)) as [[content [|]|st_size|]|] eqn:Hnode.
  - destruct (validate_segment_readable fs seg1 content Hnul Hnode)
      as (b1 & Hv1 & Hb1).
    rewrite Hpath in Hnode, Hnul.
    destruct (validate_segment_readable fs seg2 content Hnul Hnode)
      as (b2 & Hv2 & Hb2).
    rewrite H1 in Hv1. rewrite H2 in Hv2.
    injection Hv1 as <-. injection Hv2 as <-.
    destruct Hb1 as [[_ Hm1] _]; [done|].
    destruct Hb2 as [[_ Hm2] _]; [done|].
    split; [by eapply magic_matches_unique|].
    rewrite !elem_of_cons.
    destruct Hm1 as [[-> _]|[[-> _]|[-> _]]]; auto.
  - exfalso. revert H1.
    unfold validate_segment, os_stat_size, _read_head. rewrite Hnul, Hnode.
    by destruct (_ <? 24).
  - exfalso. revert H1.
    unfold validate_segment, os_stat_size, _read_head. rewrite Hnul, Hnode.
    by destruct (_ <? 24).
  - exfalso. revert H1.
    unfold validate_segment, os_stat_size. by rewrite Hnul, Hnode.
  - exfalso. revert H1.
    unfold validate_segment, os_stat_size. by rewrite Hnul, Hnode.
Qed.

Lemma validate_segment_one_label_witness :
  compressor (segment "good.pcap" "none") = compressor (segment "good.pcap" "none") ∧
  compressor (segment "good.pcap" "none") ∈ ["none"; "gzip"; "zstd"]%string.
Proof.
  apply (validate_segment_one_label capture_dir
           (segment "good.pcap" "none") (segment "good.pcap" "none"));
    reflexivity.
Defined.

End ValidatorMore.

(** ** Sampling: what is drawn, and from what *)

Module SamplingMore.

Import Sampling Examples SamplingFacts.

Local Open Scope Z_scope.

Lemma binomial_draw_sublist rnd p other : ∀ i,
  binomial_draw rnd i p other `sublist_of` other.
Proof.
  induction other as [|t other IH]; intros i; simpl; [done|].
  destruct (Qlt_le_dec (rnd i) p); [by apply sublist_skip | by apply sublist_cons].
Qed.

(** The partition loses no token. *)
Lemma len_partition (ak_set : gset string) tokens :
  len tokens = len (ak_part ak_set tokens) + len (other_part ak_set tokens).
Proof.
  unfold len, ak_part, other_part.
  induction tokens as [|t tokens IH]; simpl; [done|].
  rewrite !filter_cons. destruct (decide (t ∈ ak_set)).
  - rewrite decide_False by tauto. simpl. lia.
  - rewrite decide_True by done. simpl. lia.
Qed.

Lemma elem_of_other_part (ak_set : gset string) tokens t :
  t ∈ other_part ak_set tokens → t ∈ tokens.
Proof. unfold other_part. rewrite list_elem_of_filter. tauto. Qed.

(** X21. When sampling reaches the computation of the probability, the
    probability is below 1: the list is longer than the budget, so the
    budget left after the always-keep tokens is smaller than the number of
    other tokens, and the branch that would keep all of them is never
    taken. *)
Theorem sampling_probability_below_one (ak_set : gset string) tokens budget :
  budget < len tokens →
  0 < len (other_part ak_set tokens) →
  let p := sampling_probability
             (Z.max 0 (budget - len (ak_part ak_set tokens)))
             (len (other_part ak_set tokens)) in
  (0 <= p)%Q ∧ (p < 1)%Q ∧ Qle_bool 1 p = false.
Proof.
  intros Hlong Hother p.
  pose proof (len_partition ak_set tokens) as Hpart.
  assert (Hp : (0 <= p)%Q ∧ (p < 1)%Q).
  { subst p. unfold sampling_probability.
    set (r := Z.max 0 (budget - len (ak_part ak_set tokens))).
    set (n := len (other_part ak_set tokens)) in *.
    assert (Hn : (0 < inject_Z n)%Q) by (by rewrite <- (Zlt_Qlt 0)).
    destruct (Z.ltb_spec 0 r) as [Hr|Hr]; [|split; lra].
    assert (Hq1 : (0 <= inject_Z r / inject_Z n)%Q).
    { apply Qle_shift_div_l; [done|]. rewrite Qmult_0_l, <- (Zle_Qle 0). lia. }
    assert (Hq2 : (inject_Z r / inject_Z n < 1)%Q).
    { apply Qlt_shift_div_r; [done|]. rewrite Qmult_1_l, <- Zlt_Qlt. lia. }
    split.
    - apply Q.min_glb; lra.
    - eapply Qle_lt_trans; [apply Q.le_min_r | done]. }
  split_and!; [tauto | tauto |].
  destruct (Qle_bool 1 p) eqn:Hle; [|done].
  apply Qle_bool_iff in Hle. lra.
Qed.

Lemma sampling_probability_below_one_witness :
  let p := sampling_probability
             (Z.max 0 (3 - len (ak_part {["or"%string]} ["a"; "or"; "b"; "c"]%string)))
             (len (other_part {["or"%string]} ["a"; "or"; "b"; "c"]%string)) in
  (0 <= p)%Q ∧ (p < 1)%Q ∧ Qle_bool 1 p = false.
Proof.
  apply (sampling_probability_below_one {["or"%string]}
           ["a"; "or"; "b"; "c"]%string 3).
  - vm_compute. reflexivity.
  - vm_compute. reflexivity.
Defined.

(** X22. Sampling only removes: when it is applied, the new list is the
    always-keep tokens followed by a selection of the other tokens, both in
    their original order, cut to the budget; every token of the output
    occurs in the input and the output is no longer than the input. *)
Theorem sampling_only_removes rnd agg budget always_keep :
  let r := apply_http_binomial_sampling rnd agg budget always_keep in
  let ak_set : gset string := list_to_set always_keep in
  (r.1 = true →
   ∃ kept, kept `sublist_of` other_part ak_set (tokens_of agg) ∧
           tokens_of r.2 = slice_to budget (ak_part ak_set (tokens_of agg) ++ kept)) ∧
  (∀ t, t ∈ tokens_of r.2 → t ∈ tokens_of agg) ∧
  (length (tokens_of r.2) ≤ length (tokens_of agg))%nat.
Proof.
  intros r ak_set.
  assert (Hshape :
    r.1 = true →
    ∃ kept, kept `sublist_of` other_part ak_set (tokens_of agg) ∧
            tokens_of r.2 = slice_to budget (ak_part ak_set (tokens_of agg) ++ kept)).
  { subst r. unfold apply_http_binomial_sampling, tokens_of.
    destruct (http_uri_tokens agg) as [tokens|]; simpl; [|done].
    destruct (bool_decide (tokens = []) || (budget <=? 0)); simpl; [done|].
    destruct (len tokens <=? budget); simpl; [done|].
    fold ak_set.
    destruct (len (other_part ak_set tokens) =? 0); simpl.
    { intros _. exists []. split; [apply sublist_nil_l | by rewrite app_nil_r]. }
    intros _.
    match goal with
    | |- context [ak_part ak_set tokens ++ ?s] => set (sampled := s)
    end.
    exists sampled. split.
    - subst sampled. destruct (Qle_bool 1 _); [done|].
      destruct (Qle_bool _ 0); [apply sublist_nil_l | apply binomial_draw_sublist].
    - destruct (Z.ltb_spec budget (len (ak_part ak_set tokens ++ sampled)));
        [done|].
      unfold slice_to. rewrite take_ge; [done|]. unfold len in *. lia. }
  assert (Hsame : r.1 = false → tokens_of r.2 = tokens_of agg).
  { subst r. unfold apply_http_binomial_sampling, tokens_of.
    destruct (http_uri_tokens agg) as [tokens|] eqn:Htok; simpl;
      [|by rewrite Htok].
    destruct (bool_decide (tokens = []) || (budget <=? 0)); simpl;
      [by rewrite Htok|].
    destruct (len tokens <=? budget); simpl; [by rewrite Htok|].
    by destruct (len _ =? 0). }
  split_and!; [done | |].
  - destruct r.1 eqn:Hr; [|by rewrite Hsame].
    destruct (Hshape eq_refl) as (kept & Hsub & ->).
    intros t Ht. unfold slice_to in Ht.
    apply (subseteq_take (Z.to_nat budget)) in Ht.
    apply elem_of_app in Ht as [Ht|Ht].
    + by apply elem_of_ak_part in Ht as [_ ?].
    + eapply elem_of_other_part, sublist_subseteq; done.
  - destruct r.1 eqn:Hr; [|by rewrite Hsame].
    destruct (Hshape eq_refl) as (kept & Hsub & ->).
    unfold slice_to. rewrite length_take.
    apply sublist_length in Hsub.
    pose proof (len_partition ak_set (tokens_of agg)) as Hpart.
    rewrite length_app. unfold len in Hpart. lia.
Qed.

End SamplingMore.

(** ** The packet reader, and the memory its previews take *)

Module PacketReaderFacts.

Import PacketReader Examples FeaturesFacts EnricherMeasures.

Lemma preview_of_some payload q :
  preview_of payload = Some q →
  q = take _PREVIEW_LEN payload ∧ q ≠ [] ∧ (0 < length q ≤ _PREVIEW_LEN)%nat.
Proof.
  destruct payload as [|x payload]; simpl; [done|].
  intros [= <-]. split_and!; [done | done | simpl; lia |].
  change (x :: take 255 payload) with (take _PREVIEW_LEN (x :: payload)).
  rewrite length_take. lia.
Qed.

(** X23. The records the reader makes: a record carries TCP flags exactly
    when its transport is TCP; only a TCP segment with data gives a preview,
    which is then the first 256 bytes of the data at most and never empty,
    so that the test of the aggregation on the preview is a test on its
    presence. *)
Theorem reader_record_shape ts src dst p frame_len :
  let pkt := record_of ts src dst p frame_len in
  (is_Some (pkt_tcp_flags pkt) ↔ pkt_transport pkt = tcp) ∧
  (∀ q, pkt_payload_preview pkt = Some q →
        ∃ seg, p = TcpPayload seg ∧ q `prefix_of` data seg ∧
               length q = Nat.min _PREVIEW_LEN (length (data seg)) ∧ q ≠ []) ∧
  reader_preview pkt ∧
  truthy_preview pkt = pkt_payload_preview pkt.
Proof.
  destruct p as [seg|dgram|]; cbn -[Nat.min take _PREVIEW_LEN preview_of].
  - split_and!.
    + split; [done | by eexists].
    + intros q Hq. apply preview_of_some in Hq as (-> & Hne & _).
      exists seg. split_and!; [done | apply prefix_take | apply length_take | done].
    + unfold reader_preview; simpl.
      destruct (preview_of (data seg)) as [q|] eqn:Hq; [|done].
      by apply preview_of_some in Hq as (_ & _ & ?).
    + unfold truthy_preview; simpl.
      destruct (preview_of (data seg)) as [q|] eqn:Hq; [|done].
      apply preview_of_some in Hq as (_ & Hne & _). by destruct q.
  - split_and!; [| done | done | done].
    split; [by intros [? ?] | done].
  - split_and!; [| done | done | done].
    split; [by intros [? ?] | done].
Qed.

Lemma held_bytes_bound n (buf : list bytes) :
  Forall (λ q, (length q ≤ n)%nat) buf →
  (held_bytes buf ≤ length buf * n)%nat.
Proof.
  unfold held_bytes. induction 1 as [|q buf Hq _ IH]; simpl; [done|].
  rewrite length_app. lia.
Qed.

Lemma offered_reader_previews d calls :
  Forall (λ c, reader_preview c.1) calls →
  Forall (λ q, (0 < length q ≤ _PREVIEW_LEN)%nat) (offered d calls).
Proof.
  induction 1 as [|c calls Hc _ IH]; [by constructor|].
  unfold offered; simpl. fold (offered d calls).
  destruct (decide (c.2 = d)); [|done].
  unfold truthy_preview, reader_preview in *.
  destruct (pkt_payload_preview c.1) as [[|x q]|]; simpl; [done | | done].
  by constructor.
Qed.

(** X24. An aggregate fed with records of the reader holds, for each
    direction, at most 12 previews of 1 to 256 bytes each: 3072 bytes at
    most, however many packets it has taken. *)
Theorem preview_memory_bounded d key ts calls :
  Forall (λ c, reader_preview c.1) calls →
  let a := update_all (_new_aggregate key ts) calls in
  Forall (λ q, (0 < length q ≤ _PREVIEW_LEN)%nat) (buffer d a) ∧
  (length (buffer d a) ≤ _MAX_PREVIEWS_PER_DIR)%nat ∧
  (held_bytes (buffer d a) ≤ 3072)%nat.
Proof.
  intros Hcalls a.
  assert (Hbuf : buffer d a = take _MAX_PREVIEWS_PER_DIR (offered d calls)).
  { subst a. rewrite buffer_update_all. by destruct d. }
  assert (Hall : Forall (λ q, (0 < length q ≤ _PREVIEW_LEN)%nat) (buffer d a)).
  { rewrite Hbuf. by apply Forall_take, offered_reader_previews. }
  assert (Hlen : (length (buffer d a) ≤ _MAX_PREVIEWS_PER_DIR)%nat).
  { rewrite Hbuf, length_take. lia. }
  split_and!; [done | done |].
  assert (Hheld : (held_bytes (buffer d a) ≤ length (buffer d a) * _PREVIEW_LEN)%nat).
  { apply held_bytes_bound. eapply Forall_impl; [exact Hall|]. simpl. lia. }
  unfold _MAX_PREVIEWS_PER_DIR, _PREVIEW_LEN in *. lia.
Qed.

Lemma preview_memory_bounded_witness :
  Forall (λ c, reader_preview c.1) fourteen_requests ∧
  let a := update_all (_new_aggregate web_key 1) fourteen_requests in
  Forall (λ q, (0 < length q ≤ _PREVIEW_LEN)%nat) (buffer up a) ∧
  (length (buffer up a) ≤ _MAX_PREVIEWS_PER_DIR)%nat ∧
  (held_bytes (buffer up a) ≤ 3072)%nat.
Proof.
  assert (H : Forall (λ c, reader_preview c.1) fourteen_requests).
  { repeat constructor; unfold reader_preview; simpl; lia. }
  split; [exact H | exact (preview_memory_bounded up web_key 1 fourteen_requests H)].
Defined.

End PacketReaderFacts.

(** ** The enrichers *)

Module EnrichersFacts.

Import Enrichers EnricherMeasures Examples.

Local Open Scope Z_scope.

(** *** Dicts of counters *)

Lemma lookup_incr key (counts : gmap string Z) k :
  incr key counts !! k =
  if decide (key = k) then Some (default 0 (counts !! key) + 1) else counts !! k.
Proof. unfold incr. apply lookup_insert. Qed.

Lemma add_count_0 o : add_count o 0 = o.
Proof. done. Qed.

Lemma add_count_add o n m :
  0 <= n → 0 <= m → add_count (add_count o n) m = add_count o (n + m).
Proof.
  intros Hn Hm. unfold add_count.
  destruct (Z.eqb_spec n 0), (Z.eqb_spec m 0), (Z.eqb_spec (n + m) 0);
    simpl; try lia; try done; f_equal; lia.
Qed.

Lemma add_count_None n : add_count None n = positive n.
Proof. unfold add_count, positive. by destruct (n =? 0). Qed.

Lemma total_nonneg {A} (n : A → Z) l : (∀ x, 0 <= n x) → 0 <= total n l.
Proof.
  intros Hn. induction l as [|x l IH]; simpl; [done|]. specialize (Hn x). lia.
Qed.

Lemma total_app {A} (n : A → Z) l1 l2 :
  total n (l1 ++ l2) = total n l1 + total n l2.
Proof. induction l1 as [|x l1 IH]; simpl; lia. Qed.

Lemma total_hits {A} (hit : A → bool) l :
  total (λ x, if hit x then 1 else 0) l = Z.of_nat (length (List.filter hit l)).
Proof.
  induction l as [|x l IH]; simpl; [done|]. destruct (hit x); simpl; lia.
Qed.

(** A loop whose steps add to the counter of [k]. *)
Lemma foldl_add_count {A} (step : gmap string Z → A → gmap string Z)
    (n : A → Z) k :
  (∀ x, 0 <= n x) →
  (∀ c x, step c x !! k = add_count (c !! k) (n x)) →
  ∀ l c, foldl step c l !! k = add_count (c !! k) (total n l).
Proof.
  intros Hn Hstep. induction l as [|x l IH]; intros c; simpl; [done|].
  rewrite IH, Hstep, add_count_add; [done | done | by apply total_nonneg].
Qed.

(** *** SMB *)

Lemma smb_count_blob_lookup counts blob k :
  smb_count_blob counts blob !! k =
  add_count (counts !! k) (if bool_decide (smb_key blob = Some k) then 1 else 0).
Proof.
  unfold smb_count_blob. destruct (smb_key blob) as [key|].
  - rewrite lookup_incr. destruct (decide (key = k)) as [->|Hne].
    + by rewrite bool_decide_true by done.
    + rewrite bool_decide_false by congruence. done.
  - by rewrite bool_decide_false by done.
Qed.

(** X25. The SMB counters: the dict holds, under each key, the number of
    previews counted under that key, and holds no key that no preview was
    counted under. *)
Theorem smb_counts_per_key previews k :
  _smb_command_counts previews !! k = positive (smb_count k previews).
Proof.
  unfold _smb_command_counts, smb_count.
  rewrite (foldl_add_count smb_count_blob
             (λ blob, if bool_decide (smb_key blob = Some k) then 1 else 0) k).
  - rewrite lookup_empty, add_count_None. f_equal. apply total_hits.
  - intros blob. case_bool_decide; lia.
  - intros c blob. apply smb_count_blob_lookup.
Qed.

(** What is counted as SMB: a preview of fewer than 8 bytes is not
    counted, nor is one that starts with the SMB2 magic and has fewer than
    16 bytes; one counted has the byte that its key is made of, at offset
    12 after the SMB2 magic and at offset 4 after the SMB1 magic. *)
Lemma smb_key_cases blob :
  match smb_key blob with
  | None =>
      (length blob < 8)%nat
      ∨ (take 4 blob = SMB2_MAGIC ∧ (length blob < 16)%nat)
      ∨ (take 4 blob ≠ SMB2_MAGIC ∧ take 4 blob ≠ SMB1_MAGIC)
  | Some k =>
      (8 ≤ length blob)%nat ∧
      ((take 4 blob = SMB2_MAGIC ∧ (16 ≤ length blob)%nat ∧
        ∃ cmd, blob !! 12%nat = Some cmd ∧ k = smb2_key cmd)
       ∨ (take 4 blob = SMB1_MAGIC ∧
          ∃ cmd, blob !! 4%nat = Some cmd ∧ k = smb1_key cmd))
  end.
Proof.
  unfold smb_key, bytes in *.
  destruct (bool_decide_reflect (blob = [])) as [->|Hne]; cbn [orb andb].
  { left. simpl. lia. }
  destruct (Nat.ltb_spec (length blob) 8) as [Hshort|Hlong]; cbn [orb andb].
  { by left. }
  destruct (bool_decide_reflect (take 4 blob = SMB2_MAGIC)) as [H2|H2]; cbn [orb andb].
  - destruct (Nat.leb_spec 16 (length blob)) as [H16|H16]; cbn [orb andb].
    + destruct (lookup_lt_is_Some_2 blob 12) as [cmd Hcmd]; [lia|].
      rewrite Hcmd; cbn [fmap option_fmap option_map].
      split; [done|]. left. split_and!; [done | done |].
      by exists cmd.
    + destruct (bool_decide_reflect (take 4 blob = SMB1_MAGIC)) as [H1|H1];
        cbn [orb andb].
      * rewrite H2 in H1. discriminate.
      * right. left. done.
  - destruct (bool_decide_reflect (take 4 blob = SMB1_MAGIC)) as [H1|H1];
      cbn [orb andb].
    + destruct (Nat.leb_spec 8 (length blob)) as [_|?]; [|lia]. cbn [orb andb].
      destruct (lookup_lt_is_Some_2 blob 4) as [cmd Hcmd]; [lia|].
      rewrite Hcmd; cbn [fmap option_fmap option_map].
      split; [done|]. right. split; [done|]. by exists cmd.
    + right. right. done.
Qed.

(** *** FTP *)

(** The loop over the verbs, for any test of a verb. *)
Lemma count_verbs_lookup (test : string → bool) vs : NoDup vs →
  ∀ (counts : gmap string Z) k,
  foldl (λ counts v, if test v then incr v counts else counts) counts vs !! k =
  add_count (counts !! k) (if bool_decide (k ∈ vs) && test k then 1 else 0).
Proof.
  induction 1 as [|v vs Hv _ IH]; intros counts k; cbn [foldl].
  { by rewrite bool_decide_false by apply not_elem_of_nil. }
  rewrite IH. destruct (decide (v = k)) as [->|Hne].
  - rewrite (bool_decide_false (k ∈ vs)) by done.
    rewrite (bool_decide_true (k ∈ k :: vs)) by (apply elem_of_cons; by left).
    simpl. rewrite add_count_0. destruct (test k); [|done].
    rewrite lookup_incr. by rewrite decide_True by done.
  - assert (Hk : bool_decide (k ∈ v :: vs) = bool_decide (k ∈ vs)).
    { apply bool_decide_ext. rewrite elem_of_cons. intuition congruence. }
    rewrite Hk. f_equal.
    destruct (test v); [|done]. rewrite lookup_incr. by rewrite decide_False by done.
Qed.

Lemma verbs_NoDup : NoDup verbs.
Proof. apply (bool_decide_unpack _). by vm_compute. Qed.

Lemma ftp_count_line_lookup counts line k :
  ftp_count_line counts line !! k =
  add_count (counts !! k)
    (if bool_decide (k ∈ verbs) && has_verb line k then 1 else 0).
Proof.
  unfold ftp_count_line.
  apply (count_verbs_lookup (has_verb line) verbs verbs_NoDup).
Qed.

(** The lines of one preview. *)
Lemma ftp_lines_cons blob previews :
  ftp_lines (blob :: previews) =
  (if bool_decide (blob = []) then [] else split_crlf blob) ++ ftp_lines previews.
Proof. done. Qed.

Lemma ftp_count_blob_lookup counts blob k :
  ftp_count_blob counts blob !! k =
  add_count (counts !! k)
    (total (λ line, if bool_decide (k ∈ verbs) && has_verb line k then 1 else 0)
       (if bool_decide (blob = []) then [] else split_crlf blob)).
Proof.
  unfold ftp_count_blob. destruct (bool_decide (blob = [])); [done|].
  apply foldl_add_count.
  - intros line. destruct (_ && _); lia.
  - intros c line. apply ftp_count_line_lookup.
Qed.

Lemma ftp_command_counts_lookup previews k :
  _ftp_command_counts previews !! k =
  positive
    (total (λ line, if bool_decide (k ∈ verbs) && has_verb line k then 1 else 0)
       (ftp_lines previews)).
Proof.
  unfold _ftp_command_counts.
  rewrite (foldl_add_count ftp_count_blob
    (λ blob,
       total (λ line, if bool_decide (k ∈ verbs) && has_verb line k then 1 else 0)
         (if bool_decide (blob = []) then [] else split_crlf blob)) k).
  - rewrite lookup_empty, add_count_None. f_equal.
    induction previews as [|blob previews IH]; [done|].
    rewrite ftp_lines_cons, total_app. simpl. by rewrite IH.
  - intros blob. apply total_nonneg. intros line. destruct (_ && _); lia.
  - intros c blob. apply ftp_count_blob_lookup.
Qed.

(** X26. The FTP counters: the dict holds, under each of the four verbs,
    the number of lines of the previews that start with the verb and a
    space, whatever the case of their letters; it holds no verb that no
    line starts with, and no other key. *)
Theorem ftp_counts_per_verb previews k :
  _ftp_command_counts previews !! k =
  if bool_decide (k ∈ verbs) then positive (ftp_count k previews) else None.
Proof.
  rewrite ftp_command_counts_lookup. unfold ftp_count.
  destruct (bool_decide (k ∈ verbs)); simpl.
  - f_equal. apply total_hits.
  - assert (H0 : total (λ _ : bytes, 0) (ftp_lines previews) = 0).
    { induction (ftp_lines previews) as [|x l IH]; simpl; lia. }
    by rewrite H0.
Qed.

(** The case of the letters of a line does not matter. *)
Lemma upper_byte_idemp c : upper_byte (upper_byte c) = upper_byte c.
Proof. by destruct c. Qed.

Lemma has_verb_upper line v : has_verb (upper line) v = has_verb line v.
Proof.
  unfold has_verb, upper. rewrite <- list_fmap_compose.
  f_equal. apply list_fmap_ext. intros _ c _. apply upper_byte_idemp.
Qed.

(** *** HTTP *)

Lemma startswith_spec line pre :
  startswith line pre = true ↔ ∃ rest, line = pre ++ rest.
Proof. unfold startswith. rewrite bool_decide_eq_true. done. Qed.

Lemma find_at_skip s x l i :
  x ≠ s → find_at [s] (x :: l) i = find_at [s] l (S i).
Proof.
  intros Hne. simpl. rewrite bool_decide_false; [done|].
  intros [k Hk]. simpl in Hk. congruence.
Qed.

Lemma find_at_hit s l i : find_at [s] (s :: l) i = Some i.
Proof. simpl. rewrite bool_decide_true; [done|]. by exists l. Qed.

(** A line that starts with a method: where its first space is. *)
Lemma find_space_after_method m rest :
  m ∈ methods →
  find (m ++ rest) (b " ") 0 = Some (length m - 1)%nat ∧ (3 ≤ length m - 1)%nat.
Proof.
  unfold methods. rewrite !fmap_cons, !elem_of_cons, elem_of_nil.
  unfold find. simpl (0 <=? _)%nat. rewrite drop_0.
  intros Hm. repeat destruct Hm as [->|Hm]; [..|done];
    (split; [|vm_compute; lia]);
    cbn -[find_at];
    repeat (rewrite find_at_skip by discriminate);
    apply find_at_hit.
Qed.

Lemma request_target_of_method blob m rest :
  blob ≠ [] → m ∈ methods → first_line blob = m ++ rest →
  ∃ t, request_target blob = Some t ∧ t `prefix_of` rest.
Proof.
  intros Hne Hm Hline. unfold request_target.
  rewrite bool_decide_false by done.
  assert (Hany : existsb (startswith (first_line blob)) methods = true).
  { apply existsb_exists. exists m. split.
    - by apply list_elem_of_In.
    - apply startswith_spec. by exists rest. }
  rewrite Hany; simpl. rewrite Hline.
  destruct (find_space_after_method m rest Hm) as [-> Hlen].
  destruct (length m - 1)%nat as [|n] eqn:Hn; [lia|].
  assert (Hdrop : drop (S n + 1) (m ++ rest) = rest).
  { replace (S n + 1)%nat with (length m) by lia. apply drop_app_length. }
  rewrite Hdrop. eexists. split; [done|].
  destruct (find _ _ _); [apply prefix_take | done].
Qed.

(** X27. The request target: a preview gives a target exactly when it is
    not empty and its first line starts with one of the seven methods, so
    the search of the first space never fails there; the target is then
    the start of what follows the method on that line. *)
Theorem request_target_after_method blob :
  (is_Some (request_target blob) ↔
   blob ≠ [] ∧ existsb (startswith (first_line blob)) methods = true) ∧
  (∀ t, request_target blob = Some t →
        ∃ m rest,
          m ∈ methods ∧ first_line blob = m ++ rest ∧ t `prefix_of` rest).
Proof.
  assert (Hmethod :
    blob ≠ [] ∧ existsb (startswith (first_line blob)) methods = true →
    ∃ m rest t, m ∈ methods ∧ first_line blob = m ++ rest ∧
                request_target blob = Some t ∧ t `prefix_of` rest).
  { intros [Hne Hany]. apply existsb_exists in Hany as (m & Hm & Hstart).
    apply list_elem_of_In in Hm. apply startswith_spec in Hstart as [rest Hrest].
    destruct (request_target_of_method blob m rest Hne Hm Hrest) as (t & Ht & Hpre).
    by exists m, rest, t. }
  assert (Hguard : is_Some (request_target blob) →
    blob ≠ [] ∧ existsb (startswith (first_line blob)) methods = true).
  { unfold request_target.
    destruct (bool_decide_reflect (blob = [])) as [->|Hne]; [by intros [? ?]|].
    destruct (existsb _ methods); simpl; [done | by intros [? ?]]. }
  split.
  - split; [done|]. intros H. destruct (Hmethod H) as (m & rest & t & _ & _ & -> & _).
    by eexists.
  - intros t Ht.
    destruct (Hmethod (Hguard (mk_is_Some _ _ Ht)))
      as (m & rest & t' & ? & ? & Ht' & ?).
    rewrite Ht in Ht'. injection Ht' as <-. by exists m, rest.
Qed.

Section HttpFacts.

Variable tok : bytes → list string.

Lemma all_target_tokens_cons blob previews :
  all_target_tokens tok (blob :: previews) =
  match request_target blob with
  | Some t => tok t ++ all_target_tokens tok previews
  | None => all_target_tokens tok previews
  end.
Proof. unfold all_target_tokens. simpl. by destruct (request_target blob). Qed.

Lemma extract_loop_take max_tokens previews : ∀ tokens,
  take (Z.to_nat max_tokens) (extract_loop tok max_tokens previews tokens) =
  take (Z.to_nat max_tokens) (tokens ++ all_target_tokens tok previews).
Proof.
  induction previews as [|blob previews IH]; intros tokens.
  - simpl. unfold all_target_tokens; simpl. by rewrite app_nil_r.
  - rewrite all_target_tokens_cons. simpl.
    destruct (request_target blob) as [t|]; [|apply IH].
    destruct (Z.leb_spec max_tokens (Z.of_nat (length (tokens ++ tok t)))).
    + rewrite app_assoc. rewrite (take_app_le (tokens ++ tok t)); [done | lia].
    + by rewrite IH, app_assoc.
Qed.

Lemma http_extract_take previews max_tokens :
  0 <= max_tokens →
  _http_extract_uri_tokens tok previews max_tokens =
  take (Z.to_nat max_tokens) (all_target_tokens tok previews).
Proof.
  intros Hmax. unfold _http_extract_uri_tokens, slice_upto.
  destruct (Z.leb_spec 0 max_tokens); [|lia].
  by rewrite extract_loop_take.
Qed.

(** X28. The URI tokens of an aggregate are the first [max_tokens] tokens
    of the request targets of its previews, taken in order: leaving the
    loop early loses nothing. *)
Theorem http_tokens_are_first_tokens previews max_tokens :
  0 <= max_tokens →
  _http_extract_uri_tokens tok previews max_tokens =
    take (Z.to_nat max_tokens) (all_target_tokens tok previews) ∧
  Z.of_nat (length (_http_extract_uri_tokens tok previews max_tokens)) <= max_tokens.
Proof.
  intros Hmax. rewrite http_extract_take by done.
  split; [done|]. rewrite length_take. lia.
Qed.

End HttpFacts.

Lemma http_tokens_are_first_tokens_witness :
  let tok := λ t : bytes, [string_of_list_byte t] in
  let previews := [b "GET /a HTTP/1.1"; b "POST /b HTTP/1.1"] in
  0 <= 1 ∧
  _http_extract_uri_tokens tok previews 1 =
    take (Z.to_nat 1) (all_target_tokens tok previews) ∧
  Z.of_nat (length (_http_extract_uri_tokens tok previews 1)) <= 1.
Proof.
  intros tok previews. split; [lia|].
  apply (http_tokens_are_first_tokens tok previews 1). lia.
Defined.

(** *** The dispatch on the service *)

Section DispatchFacts.

Variable tok : bytes → list string.
Variable lower : string → string.

Lemma with_enrichments_of_self a : with_enrichments_of a a = a.
Proof. by destruct a. Qed.

(** X29. One call of [enrich_group]: the three flags are always there and
    a flag is set only for the service of the key, in lower case, so at
    most one is; only the field of that service is written, with tokens or
    counters that are not empty; the counters, the span and the previews
    of the aggregate are never touched, and with no flag set the
    aggregate is as it was. An aggregate without previews gets no flag. *)
Theorem enrich_group_frame a :
  let r := enrich_group tok lower a in
  dom r.1 = {["http"; "ftp"; "smb"]}%string ∧
  (∀ s, r.1 !! s = Some true → lower (service (key a)) = s) ∧
  with_enrichments_of a r.2 = r.2 ∧
  ((∀ s, r.1 !! s ≠ Some true) → r.2 = a) ∧
  (scanned a = [] → r = (nothing_updated, a)) ∧
  (r.1 !! "http"%string = Some true →
   ∃ toks, r.2 = Sampling.set_http_uri_tokens a toks ∧ toks ≠ [] ∧
           (length toks ≤ 256)%nat) ∧
  (r.1 !! "ftp"%string = Some true →
   ∃ counts, r.2 = set_ftp_cmd_counts a counts ∧ counts ≠ ∅) ∧
  (r.1 !! "smb"%string = Some true →
   ∃ counts, r.2 = set_smb_cmd_counts a counts ∧ counts ≠ ∅).
Proof.
  intros r.
  assert (Hnone : ∀ s, nothing_updated !! s ≠ Some true).
  { intros s. unfold nothing_updated. rewrite !lookup_insert, lookup_empty.
    repeat case_decide; done. }
  assert (Hdom : dom nothing_updated = ({["http"; "ftp"; "smb"]}%string : gset string)).
  { vm_compute. done. }
  assert (Hquiet : r = (nothing_updated, a) →
    dom r.1 = {["http"; "ftp"; "smb"]}%string ∧
    (∀ s, r.1 !! s = Some true → lower (service (key a)) = s) ∧
    with_enrichments_of a r.2 = r.2 ∧
    ((∀ s, r.1 !! s ≠ Some true) → r.2 = a) ∧
    (scanned a = [] → r = (nothing_updated, a)) ∧
    (r.1 !! "http"%string = Some true →
     ∃ toks, r.2 = Sampling.set_http_uri_tokens a toks ∧ toks ≠ [] ∧
             (length toks ≤ 256)%nat) ∧
    (r.1 !! "ftp"%string = Some true →
     ∃ counts, r.2 = set_ftp_cmd_counts a counts ∧ counts ≠ ∅) ∧
    (r.1 !! "smb"%string = Some true →
     ∃ counts, r.2 = set_smb_cmd_counts a counts ∧ counts ≠ ∅)).
  { intros ->. simpl.
    split_and!; [done | | apply with_enrichments_of_self | done | done | | |];
      intros; exfalso; by eapply Hnone. }
  revert Hquiet. subst r. unfold enrich_group.
  destruct (bool_decide_reflect (scanned a = [])) as [Hnil|Hsome].
  { intros H. by apply H. }
  destruct (String.eqb_spec (lower (service (key a))) "http") as [Hsvc|Hhttp].
  { destruct (bool_decide_reflect
                (_http_extract_uri_tokens tok (scanned a) 256 = [])) as [|Htoks].
    { intros H. by apply H. }
    intros _. simpl. split_and!.
    - vm_compute. done.
    - intros s. unfold nothing_updated. rewrite !lookup_insert, lookup_empty.
      repeat case_decide; (done || congruence).
    - by destruct a.
    - intros H. exfalso. by apply (H "http"%string).
    - done.
    - intros _. eexists. split_and!; [done | done |].
      pose proof (http_extract_take tok (scanned a) 256 ltac:(lia)) as ->.
      rewrite length_take. lia.
    - intros H. by vm_compute in H.
    - intros H. by vm_compute in H. }
  destruct (String.eqb_spec (lower (service (key a))) "ftp") as [Hsvc|Hftp].
  { destruct (bool_decide_reflect (_ftp_command_counts (scanned a) = ∅)) as [|Hc].
    { intros H. by apply H. }
    intros _. simpl. split_and!.
    - vm_compute. done.
    - intros s. unfold nothing_updated. rewrite !lookup_insert, lookup_empty.
      repeat case_decide; (done || congruence).
    - by destruct a.
    - intros H. exfalso. by apply (H "ftp"%string).
    - done.
    - intros H. by vm_compute in H.
    - intros _. by eexists.
    - intros H. by vm_compute in H. }
  destruct (String.eqb_spec (lower (service (key a))) "smb") as [Hsvc|Hsmb].
  { destruct (bool_decide_reflect (_smb_command_counts (scanned a) = ∅)) as [|Hc].
    { intros H. by apply H. }
    intros _. simpl. split_and!.
    - vm_compute. done.
    - intros s. unfold nothing_updated. rewrite !lookup_insert, lookup_empty.
      repeat case_decide; (done || congruence).
    - by destruct a.
    - intros H. exfalso. by apply (H "smb"%string).
    - done.
    - intros H. by vm_compute in H.
    - intros H. by vm_compute in H.
    - intros _. by eexists. }
  intros H. by apply H.
Qed.

End DispatchFacts.

(** *** Runs *)

(** A request line, with a header after it: the target lies between the
    method and the version. *)
Example request_target_run :
  request_target
    (b "GET /a?b=1 HTTP/1.1" ++ [Byte.x0d; Byte.x0a] ++ b "Host: x")
  = Some (b "/a?b=1") ∧
  request_target (b "GET /index.html") = Some (b "/index.html") ∧
  request_target (b "HTTP/1.1 200 OK") = None ∧
  request_target (b "GETX /a HTTP/1.1") = None.
Proof. vm_compute. done. Qed.

(** Verbs in any case are counted, a verb without a space after it is
    not. *)
Example ftp_run :
  _ftp_command_counts
    [b "user bob" ++ [Byte.x0d; Byte.x0a] ++ b "PASS x" ++ [Byte.x0d; Byte.x0a];
     b "USERNAME"; []; b "Retr f"]
  = {[ "USER" := 1; "PASS" := 1; "RETR" := 1 ]}%string.
Proof. vm_compute. reflexivity. Qed.

(** An SMB2 header, an SMB2 magic with too few bytes after it, and an SMB1
    header. *)
Example smb_run :
  _smb_command_counts
    [SMB2_MAGIC ++ replicate 8 Byte.x00 ++ [Byte.x05] ++ replicate 3 Byte.x00;
     SMB2_MAGIC ++ replicate 4 Byte.x00;
     SMB1_MAGIC ++ [Byte.x72] ++ replicate 3 Byte.x00]
  = {[ "SMB2_5" := 1; "SMB1_114" := 1 ]}%string.
Proof. vm_compute. reflexivity. Qed.

End EnrichersFacts.

(** ** The compressor of a segment file *)

Module SegmentSourceFacts.

Import SegmentSource.

Lemma endswith_trans s a c :
  endswith a c = true → endswith s a = true → endswith s c = true.
Proof.
  unfold endswith. rewrite !bool_decide_eq_true. intros Hac Hsa. by etrans.
Qed.

(** No name ends with both suffixes. *)
Lemma endswith_zst_gz s :
  endswith s ".zst" = true → endswith s ".gz" = true → False.
Proof.
  unfold endswith. rewrite !bool_decide_eq_true. intros [k1 H1] [k2 H2].
  rewrite H1 in H2. apply (f_equal reverse) in H2.
  rewrite !reverse_app in H2. vm_compute in H2. discriminate.
Qed.

Section NamesFacts.

Variable lower : string → string.

(** X30. The compressor is read off the end of the name in lower case:
    zstd exactly for the names that end with .zst, gzip exactly for those
    that end with .gz, and none for all others; the longer suffixes of the
    table change nothing. *)
Theorem infer_compressor_by_suffix name :
  let c := _infer_compressor lower name in
  (c = "zstd"%string ↔ endswith (lower name) ".zst" = true) ∧
  (c = "gzip"%string ↔ endswith (lower name) ".gz" = true) ∧
  (c = "none"%string ↔
   endswith (lower name) ".zst" = false ∧ endswith (lower name) ".gz" = false).
Proof.
  unfold _infer_compressor, COMP_SUFFIXES. cbn [List.find fst snd].
  set (s := lower name).
  pose proof (endswith_trans s ".pcap.zst" ".zst" ltac:(by vm_compute)) as H1.
  pose proof (endswith_trans s ".pcapng.zst" ".zst" ltac:(by vm_compute)) as H2.
  pose proof (endswith_trans s ".pcap.gz" ".gz" ltac:(by vm_compute)) as H3.
  pose proof (endswith_trans s ".pcapng.gz" ".gz" ltac:(by vm_compute)) as H4.
  pose proof (endswith_zst_gz s) as Hex.
  destruct (endswith s ".pcap.zst"), (endswith s ".pcapng.zst"),
    (endswith s ".zst"), (endswith s ".pcap.gz"), (endswith s ".pcapng.gz"),
    (endswith s ".gz");
    try (by specialize (H1 eq_refl)); try (by specialize (H2 eq_refl));
    try (by specialize (H3 eq_refl)); try (by specialize (H4 eq_refl));
    try (by destruct (Hex eq_refl eq_refl));
    clear; split_and!; split; (done || by intros []).
Qed.

End NamesFacts.

(** Names that are already in lower case. *)
Example infer_compressor_run :
  _infer_compressor (λ s, s) "seg-0001.pcap.gz" = "gzip"%string ∧
  _infer_compressor (λ s, s) "seg-0001.pcapng.zst" = "zstd"%string ∧
  _infer_compressor (λ s, s) "seg-0001.pcap" = "none"%string ∧
  _infer_compressor (λ s, s) "gz" = "none"%string.
Proof. vm_compute. done. Qed.

End SegmentSourceFacts.
